(** * easyvisuals: the tree layout of [treeview.py]

    A shallow embedding of [TreeGraph] (size estimation, spacing, asset
    preload, recursive drawing) and the properties of its layout.

    Python integers are unbounded, so they are [Z]; [//] is floor division,
    which is [Z.div] on a non-zero divisor.  Recursion is taken as unbounded
    (the interpreter's recursion limit is not modelled). *)

From stdpp Require Import gmap strings list.
From Stdlib Require Import ZArith Lia.

Local Open Scope Z_scope.

(** ** Tree nodes

    [TreeNode = namedtuple('TreeNode', ['name', 'image', 'children'],
    defaults=[None, []])]: [image] defaults to [None], [children] to the
    empty list. *)

#[local] Unset Elimination Schemes.
Inductive TreeNode : Type :=
  Node (name : string) (image : option string) (children : list TreeNode).
#[local] Set Elimination Schemes.

Definition name (node : TreeNode) : string :=
  match node with Node n _ _ => n end.
Definition image (node : TreeNode) : option string :=
  match node with Node _ i _ => i end.
Definition children (node : TreeNode) : list TreeNode :=
  match node with Node _ _ cs => cs end.

(** [if node.image:] holds for a string that is not empty; [None] and the
    empty string are both false. *)
Definition image_id (node : TreeNode) : option string :=
  match image node with
  | Some EmptyString => None
  | Some path => Some path
  | None => None
  end.

(** Structural induction that reaches the children of a node. *)
Section TreeNode_induction.
Variable P : TreeNode -> Prop.
Hypothesis step : forall n i cs, Forall P cs -> P (Node n i cs).

Fixpoint TreeNode_forall_ind (t : TreeNode) : P t :=
  match t with
  | Node n i cs =>
      step n i cs
        ((fix all (l : list TreeNode) : Forall P l :=
            match l with
            | [] => List.Forall_nil P
            | c :: l' =>
                @List.Forall_cons _ P c l' (TreeNode_forall_ind c) (all l')
            end) cs)
  end.
End TreeNode_induction.

(** Measures of a tree used to state the properties. *)
Fixpoint count_nodes (t : TreeNode) : nat :=
  match t with
  | Node _ _ cs => S (list_sum (map count_nodes cs))
  end.

(** All nodes of a tree, parent before children, children left to right. *)
Fixpoint subtrees (t : TreeNode) : list TreeNode :=
  match t with
  | Node _ _ cs => t :: concat (map subtrees cs)
  end.

(** [is_chain d t]: [t] is a chain of [d] nodes, each node but the last with
    exactly one child. *)
Fixpoint is_chain (d : nat) (t : TreeNode) : bool :=
  match d with
  | O => false
  | S d' =>
      match children t with
      | [] => Nat.eqb d' 0
      | [c] => is_chain d' c
      | _ => false
      end
  end.

(** Builds the chain of [d] nodes below a node named [n]. *)
Fixpoint chain_below (d : nat) (n : string) : TreeNode :=
  match d with
  | O => Node n None []
  | S d' => Node n None [chain_below d' n]
  end.

(** ** Size estimation *)

(** [max(...)] over a generator: the first element, then the larger of it
    and each next one.  Python raises on an empty iterable;
    [calculate_tree_size] only reaches it with at least one child, and the
    empty case is given the value 0 here. *)
Definition py_max (l : list Z) : Z :=
  match l with
  | [] => 0
  | x :: l' => fold_left Z.max l' x
  end.

(** [sum(...)] over a generator, starting from 0. *)
Definition py_sum (l : list Z) : Z := fold_left Z.add l 0.

Fixpoint calculate_tree_size (node : TreeNode) : Z * Z :=
  match node with
  | Node _ _ children =>
      match children with
      | [] => (1, 1)
      | _ :: _ =>
          let child_sizes := map calculate_tree_size children in
          let max_child_width := py_max (map fst child_sizes) in
          let total_height := py_sum (map snd child_sizes) in
          (Z.max max_child_width (Z.of_nat (length children)),
           total_height + 1)
      end
  end.

(** ** Exceptions and results *)

Inductive exn : Type :=
| ValueError (msg : string)
| KeyError (key : string)
| ZeroDivisionError
| OtherError (msg : string).

Inductive result (A : Type) : Type :=
| Ok (a : A)
| Raise (e : exn).
Arguments Ok {A} a.
Arguments Raise {A} e.

(** [a // b] on integers. *)
Definition floordiv (a b : Z) : result Z :=
  if decide (b = 0) then Raise ZeroDivisionError else Ok (a / b).

(** ** Node spacing

    [calculate_node_spacing] reads [self.canvas_width], [self.canvas_height]
    and [self.tree_size]; they are its arguments here. *)
Definition calculate_node_spacing
    (canvas_width canvas_height : Z) (tree_size : Z * Z) : result (Z * Z) :=
  match floordiv canvas_width (fst tree_size) with
  | Raise e => Raise e
  | Ok x_spacing =>
      match floordiv canvas_height (snd tree_size) with
      | Raise e => Raise e
      | Ok y_spacing => Ok (x_spacing, y_spacing)
      end
  end.

(** ** The graph object and the objects it owns *)

(** The fields of a [TreeGraph] that hold values; they are assigned once, in
    [__init__]. *)
Record TreeGraph : Type := {
  data : TreeNode;
  tree_size : Z * Z;
  canvas_width : Z;
  canvas_height : Z;
  x_spacing : Z;
  y_spacing : Z
}.

Section Model.
(** The handle [ImageTk.PhotoImage] returns. *)
Context {Image : Type}.

(** [ImageTk.PhotoImage(Image.open(path).resize((80, 60), Image.LANCZOS))]:
    the handle, or [str(e)] of the exception raised on the way (of a class
    of PIL or of the file system, [OtherError] below). *)
Variable load_image : string -> Image + string.

(** [repr] of a string, which is [str(KeyError(key))]. *)
Variable repr : string -> string.

Definition str (e : exn) : string :=
  match e with
  | ValueError msg => msg
  | KeyError key => repr key
  | ZeroDivisionError => "integer division or modulo by zero"
  | OtherError msg => msg
  end.

(** What the canvas holds, in creation order. *)
Inductive item : Type :=
| window_item (x y : Z)
| image_item (x y : Z) (image : Image)
| rectangle_item (x0 y0 x1 y1 : Z) (fill : string)
| text_item (x y : Z) (text fill : string)
| line_item (x0 y0 x1 y1 : Z) (arrow : string).

(** The mutable objects of one graph: the canvas ([self.canvas]: its items
    and scroll region), the dictionary [self.preloaded_images], and the
    paths handed to [Image.open] so far. *)
Record World : Type := {
  items : list item;
  scrollregion : option (Z * Z * Z * Z);
  preloaded_images : gmap string Image;
  opened : list string
}.

Definition add_item (it : item) (w : World) : World :=
  {| items := items w ++ [it]; scrollregion := scrollregion w;
     preloaded_images := preloaded_images w; opened := opened w |}.

(** Methods run on the world and return or raise. *)
Definition M (A : Type) : Type := World -> World * result A.

#[local] Instance M_ret : MRet M := fun A a w => (w, Ok a).
#[local] Instance M_bind : MBind M := fun A B f m w =>
  match m w with
  | (w', Ok a) => f a w'
  | (w', Raise e) => (w', Raise e)
  end.

Definition raise {A} (e : exn) : M A := fun w => (w, Raise e).

(** [try: body except Exception as e: handler e] *)
Definition try_except {A} (body : M A) (handler : exn -> M A) : M A :=
  fun w =>
    match body w with
    | (w', Ok a) => (w', Ok a)
    | (w', Raise e) => handler e w'
    end.

(** [try: body except ValueError as e: handler e] *)
Definition try_except_ValueError {A}
    (body : M A) (handler : exn -> M A) : M A :=
  try_except body
    (fun e => match e with
              | ValueError _ => handler e
              | _ => raise e
              end).

(** Canvas primitives. *)
Definition create_window (x y : Z) : M unit :=
  fun w => (add_item (window_item x y) w, Ok tt).
Definition create_image (x y : Z) (image : Image) : M unit :=
  fun w => (add_item (image_item x y image) w, Ok tt).
Definition create_rectangle (x0 y0 x1 y1 : Z) (fill : string) : M unit :=
  fun w => (add_item (rectangle_item x0 y0 x1 y1 fill) w, Ok tt).
Definition create_text (x y : Z) (text fill : string) : M unit :=
  fun w => (add_item (text_item x y text fill) w, Ok tt).
Definition create_line (x0 y0 x1 y1 : Z) (arrow : string) : M unit :=
  fun w => (add_item (line_item x0 y0 x1 y1 arrow) w, Ok tt).
Definition configure_scrollregion (region : Z * Z * Z * Z) : M unit :=
  fun w =>
    ({| items := items w; scrollregion := Some region;
        preloaded_images := preloaded_images w; opened := opened w |},
     Ok tt).

(** [self.preloaded_images[key]] *)
Definition get_preloaded (key : string) : M Image :=
  fun w =>
    match preloaded_images w !! key with
    | Some image => (w, Ok image)
    | None => (w, Raise (KeyError key))
    end.

(** [self.preloaded_images[key] = ImageTk.PhotoImage(...)], with the
    opening and resizing before it: the path is opened, and the entry is
    written only when a handle came back. *)
Definition load_and_store (path : string) : M unit :=
  fun w =>
    match load_image path with
    | inl image =>
        ({| items := items w; scrollregion := scrollregion w;
            preloaded_images := <[path := image]> (preloaded_images w);
            opened := opened w ++ [path] |}, Ok tt)
    | inr cause =>
        ({| items := items w; scrollregion := scrollregion w;
            preloaded_images := preloaded_images w;
            opened := opened w ++ [path] |},
         Raise (OtherError cause))
    end.

(** A result computed without the world, returned or raised. *)
Definition lift {A} (r : result A) : M A := fun w => (w, r).

(** *** [preload_images] *)
Fixpoint preload_images (node : TreeNode) {struct node} : M unit :=
  match node with
  | Node _ _ node_children =>
      match image_id node with
      | Some path =>
          try_except (load_and_store path)
            (fun e => raise (ValueError
               ("Failed to load image: " +:+ path +:+ ". " +:+ str e)))
      | None => mret tt
      end ;;
      (fix each (cs : list TreeNode) {struct cs} : M unit :=
         match cs with
         | [] => mret tt
         | child :: cs' => preload_images child ;; each cs'
         end) node_children
  end.

(** *** [draw_tree] *)
Fixpoint draw_tree (self : TreeGraph) (node : TreeNode) (x y : Z)
    {struct node} : M Z :=
  match node with
  | Node node_name _ node_children =>
      let node_width := 80 in
      let node_height := 60 in
      match image_id node with
      | Some path =>
          try_except
            (image ← get_preloaded path; create_image x y image)
            (fun e => raise (ValueError
               ("Failed to load image: " +:+ path +:+ ". " +:+ str e)))
      | None =>
          create_rectangle (x - node_width / 2) (y - node_height / 2)
                           (x + node_width / 2) (y + node_height / 2)
                           "lightblue"
      end ;;
      create_text x y node_name "black" ;;
      match node_children with
      | [] => mret node_width
      | _ :: _ =>
          let num_children := Z.of_nat (length node_children) in
          let total_width := num_children * x_spacing self in
          let start_x := x - total_width / 2 in
          (fix each (cs : list TreeNode) (start_x : Z) {struct cs}
               : M unit :=
             match cs with
             | [] => mret tt
             | child :: cs' =>
                 start_x' ←
                   try_except_ValueError
                     (create_line x (y + node_height / 2)
                                  (start_x + x_spacing self / 2)
                                  (y + y_spacing self - node_height / 2)
                                  "last" ;;
                      child_width ←
                        draw_tree self child
                                  (start_x + x_spacing self / 2)
                                  (y + y_spacing self);
                      mret (start_x + child_width))
                     (fun e => raise (ValueError
                        ("Error drawing tree: " +:+ str e)));
                 each cs' start_x'
             end) node_children start_x ;;
          mret total_width
      end
  end.

(** The first statement of [draw_tree], the shape of the node, on its
    own. *)
Definition draw_shape (node : TreeNode) (x y : Z) : M unit :=
  match image_id node with
  | Some path =>
      try_except
        (image ← get_preloaded path; create_image x y image)
        (fun e => raise (ValueError
           ("Failed to load image: " +:+ path +:+ ". " +:+ str e)))
  | None =>
      create_rectangle (x - 80 / 2) (y - 60 / 2) (x + 80 / 2) (y + 60 / 2)
                       "lightblue"
  end.

(** The loop of [draw_tree] over the children of a node drawn at
    [(x, y)], on its own. *)
Definition draw_children (self : TreeGraph) (x y : Z)
    : list TreeNode → Z → M unit :=
  fix each (cs : list TreeNode) (start_x : Z) {struct cs} : M unit :=
    match cs with
    | [] => mret tt
    | child :: cs' =>
        start_x' ←
          try_except_ValueError
            (create_line x (y + 60 / 2)
                         (start_x + x_spacing self / 2)
                         (y + y_spacing self - 60 / 2)
                         "last" ;;
             child_width ←
               draw_tree self child
                         (start_x + x_spacing self / 2)
                         (y + y_spacing self);
             mret (start_x + child_width))
            (fun e => raise (ValueError
               ("Error drawing tree: " +:+ str e)));
        each cs' start_x'
    end.

(** The loop of [preload_images] over the children, on its own. *)
Fixpoint preload_children (cs : list TreeNode) {struct cs} : M unit :=
  match cs with
  | [] => mret tt
  | child :: cs' => preload_images child ;; preload_children cs'
  end.

(** The body of [preload_images] for one path after the other. *)
Fixpoint preload_paths (paths : list string) {struct paths} : M unit :=
  match paths with
  | [] => mret tt
  | path :: paths' =>
      try_except (load_and_store path)
        (fun e => raise (ValueError
           ("Failed to load image: " +:+ path +:+ ". " +:+ str e))) ;;
      preload_paths paths'
  end.

(** *** [display_tree] *)
Definition display_tree (self : TreeGraph) : M unit :=
  try_except_ValueError
    (root_width ← draw_tree self (data self) (canvas_width self / 2) 30;
     configure_scrollregion
       ((- root_width) / 2, -30, root_width / 2, canvas_height self))
    (fun e => raise (ValueError ("Error displaying tree: " +:+ str e))).

(** *** [__init__]

    The frame, the scrollbars and the event binding hold no value the
    layout reads and are left out.  [self.canvas.bbox("all")] of the still
    empty canvas is [None], and configuring [scrollregion=None] changes
    nothing.  The inner frame is placed on the canvas as a window item. *)
Definition TreeGraph_init (data : TreeNode) : M TreeGraph :=
  let tree_size := calculate_tree_size data in
  let canvas_width := 800 in
  let canvas_height := 600 in
  '(x_spacing, y_spacing) ←
    lift (calculate_node_spacing canvas_width canvas_height tree_size);
  create_window 0 0 ;;
  preload_images data ;;
  mret {| data := data; tree_size := tree_size;
          canvas_width := canvas_width; canvas_height := canvas_height;
          x_spacing := x_spacing; y_spacing := y_spacing |}.

(** The world before [__init__]: an empty canvas, [preloaded_images = {}],
    no file opened. *)
Definition fresh_world : World :=
  {| items := []; scrollregion := None;
     preloaded_images := ∅; opened := [] |}.

(** [TreeGraph(data, parent)] *)
Definition TreeGraph_new (data : TreeNode) : World * result TreeGraph :=
  TreeGraph_init data fresh_world.
End Model.

(** ** What a drawing is read by *)

Section Observations.
Context {Image : Type}.

(** The labels on the canvas: text and position, in drawing order. *)
Fixpoint labels (its : list (@item Image)) : list (string * Z * Z) :=
  match its with
  | [] => []
  | text_item x y text _ :: its' => (text, x, y) :: labels its'
  | _ :: its' => labels its'
  end.

(** The number of node shapes (an image or a rectangle). *)
Fixpoint count_shapes (its : list (@item Image)) : nat :=
  match its with
  | [] => O
  | image_item _ _ _ :: its' => S (count_shapes its')
  | rectangle_item _ _ _ _ _ :: its' => S (count_shapes its')
  | _ :: its' => count_shapes its'
  end.

(** The edges: both ends of every line, in drawing order. *)
Fixpoint edges (its : list (@item Image)) : list (Z * Z * Z * Z) :=
  match its with
  | [] => []
  | line_item x0 y0 x1 y1 _ :: its' => (x0, y0, x1, y1) :: edges its'
  | _ :: its' => edges its'
  end.
End Observations.

(** The assets a tree refers to, parent before children. *)
Fixpoint assets (t : TreeNode) : list string :=
  match t with
  | Node _ _ cs =>
      match image_id t with
      | Some path => path :: concat (map assets cs)
      | None => concat (map assets cs)
      end
  end.

(** Name and depth of every node, parent before children; the root of the
    tree is at depth [d]. *)
Fixpoint depths (d : nat) (t : TreeNode) : list (string * nat) :=
  match t with
  | Node n _ cs => (n, d) :: concat (map (depths (S d)) cs)
  end.

(** The width [draw_tree] returns for a node when it returns. *)
Definition returned_width (x_spacing : Z) (node : TreeNode) : Z :=
  match children node with
  | [] => 80
  | _ :: _ => Z.of_nat (length (children node)) * x_spacing
  end.

(** The coordinates [draw_tree] hands down: name and position of every
    node, parent before children, for a node drawn at [(x, y)]. *)
Fixpoint positions (x_spacing y_spacing : Z) (node : TreeNode) (x y : Z)
    {struct node} : list (string * Z * Z) :=
  match node with
  | Node n _ cs =>
      (n, x, y) ::
      (fix each (cs : list TreeNode) (start_x : Z) {struct cs} :=
         match cs with
         | [] => []
         | child :: cs' =>
             positions x_spacing y_spacing child
                       (start_x + x_spacing / 2) (y + y_spacing)
             ++ each cs' (start_x + returned_width x_spacing child)
         end) cs (x - Z.of_nat (length cs) * x_spacing / 2)
  end.

(** The positions of the children [cs] of a node drawn at height [y], the
    first of them placed from [start_x]. *)
Fixpoint positions_children (x_spacing y_spacing : Z) (y : Z)
    (cs : list TreeNode) (start_x : Z) {struct cs} : list (string * Z * Z) :=
  match cs with
  | [] => []
  | child :: cs' =>
      positions x_spacing y_spacing child
                (start_x + x_spacing / 2) (y + y_spacing)
      ++ positions_children x_spacing y_spacing y cs'
           (start_x + returned_width x_spacing child)
  end.

Section Outcomes.
Context {Image : Type}.
Implicit Types w : @World Image.

(** [added w w' its]: from [w] to [w'] the canvas got the items [its] and
    nothing else changed. *)
Definition added w w' (its : list (@item Image)) : Prop :=
  items w' = items w ++ its ∧
  scrollregion w' = scrollregion w ∧
  preloaded_images w' = preloaded_images w ∧
  opened w' = opened w.

(** Every asset of [node] is a key of [self.preloaded_images]. *)
Definition preloaded (node : TreeNode) w : Prop :=
  ∀ path, path ∈ assets node → is_Some (preloaded_images w !! path).

(** A call of [draw_tree] that returns found the assets of the subtree
    preloaded and has returned [returned_width]; the canvas has got one
    shape and one label per node of the subtree, the labels at
    [positions], one line per node below the root of the subtree, and
    nothing else has changed. *)
Definition drawn_ok (self : TreeGraph) (node : TreeNode) (x y : Z)
    w w' (r : Z) : Prop :=
  r = returned_width (x_spacing self) node ∧
  preloaded node w ∧
  ∃ its, added w w' its ∧
    labels its = positions (x_spacing self) (y_spacing self) node x y ∧
    count_shapes its = count_nodes node ∧
    length (edges its) = pred (count_nodes node).

(** Every path of [l] decodes. *)
Definition all_load (load_image : string → Image + string)
    (l : list string) : Prop :=
  ∀ path, path ∈ l → ∃ image, load_image path = inl image.

(** The graph [__init__] builds for [data]. *)
Definition graph_of (data : TreeNode) : TreeGraph :=
  {| data := data; tree_size := calculate_tree_size data;
     canvas_width := 800; canvas_height := 600;
     x_spacing := 800 / fst (calculate_tree_size data);
     y_spacing := 600 / snd (calculate_tree_size data) |}.
End Outcomes.

(** [m] is the largest element of [l]. *)
Definition is_max (m : Z) (l : list Z) : Prop :=
  m ∈ l ∧ ∀ z, z ∈ l → z ≤ m.

(** ** Example inputs *)

(** Root with the two leaf children "Hello" and "World". *)
Definition hello_world (root_name : string) : TreeNode :=
  Node root_name None [Node "Hello" None []; Node "World" None []].

(** Root with 801 leaf children: wider than the canvas has pixels. *)
Definition wide_tree : TreeNode :=
  Node "" None (replicate 801%nat (Node "" None [])).

(** A chain of ten nodes. *)
Definition chain10 : TreeNode := chain_below 9 "n".

(** The tree of the script's [__main__]. *)
Definition tree_data : TreeNode :=
  Node "" (Some "test.png")
    [Node "Hello" None [Node "World" None []];
     Node "Not" None [Node "goodbye" None [Node "world" None []]]].

(** A tree whose second asset, of three, does not decode on the host
    below. *)
Definition broken_tree : TreeNode :=
  Node "a" (Some "ok.png")
    [Node "b" (Some "missing.png") []; Node "c" (Some "x.png") []].

(** A host on which every file but ["missing.png"] decodes; the handle is
    the path. *)
Definition demo_load (path : string) : string + string :=
  if decide (path = "missing.png") then inr "No such file" else inl path.

Definition demo_repr (s : string) : string := "'" +:+ s +:+ "'".

(** ** Further measures and inputs *)

(** The largest number of children a node of the tree has. *)
Fixpoint max_branching (t : TreeNode) : nat :=
  match t with
  | Node _ _ cs => Nat.max (length cs) (foldr Nat.max O (map max_branching cs))
  end.

(** The first node, parent before children, whose asset [has] does not
    hold: how many levels below the root it is, and its asset. *)
Fixpoint first_missing (has : string → bool) (t : TreeNode)
    : option (nat * string) :=
  match t with
  | Node _ _ cs =>
      let below :=
        (fix each (cs : list TreeNode) : option (nat * string) :=
           match cs with
           | [] => None
           | c :: cs' =>
               match first_missing has c with
               | Some (d, path) => Some (S d, path)
               | None => each cs'
               end
           end) cs in
      match image_id t with
      | Some path => if has path then below else Some (O, path)
      | None => below
      end
  end.

(** The search of [first_missing] through the children, on its own. *)
Definition first_missing_below (has : string → bool)
    : list TreeNode → option (nat * string) :=
  fix each (cs : list TreeNode) : option (nat * string) :=
    match cs with
    | [] => None
    | c :: cs' =>
        match first_missing has c with
        | Some (d, path) => Some (S d, path)
        | None => each cs'
        end
    end.

(** Whether [path] is a key of [self.preloaded_images]. *)
Definition has_preloaded {Image : Type} (w : @World Image) (path : string)
    : bool :=
  bool_decide (is_Some (preloaded_images w !! path)).

(** The message of [draw_tree] for an asset that is not preloaded, [d]
    levels below the node the call was for. *)
Definition draw_error (repr : string → string) (d : nat) (path : string)
    : string :=
  Nat.iter d (λ msg, "Error drawing tree: " +:+ msg)
    ("Failed to load image: " +:+ path +:+ ". " +:+ repr path).

(** A tree with an asset two levels down that nothing has preloaded. *)
Definition gone_tree : TreeNode :=
  Node "r" None
    [Node "a" None [];
     Node "b" None [Node "c" (Some "gone.png") []; Node "d" None []]].

(** A tree that refers to one asset from two nodes. *)
Definition twice_tree : TreeNode :=
  Node "r" (Some "logo.png")
    [Node "a" None []; Node "b" (Some "logo.png") []].

(** ** Size estimation: properties *)

Lemma fold_left_max_ge (l : list Z) (a : Z) :
  a ≤ fold_left Z.max l a ∧ ∀ z, z ∈ l → z ≤ fold_left Z.max l a.
Proof.
  revert a. induction l as [|b l IH]; intros a; simpl.
  - split; [lia | intros z Hz; inversion Hz].
  - destruct (IH (Z.max a b)) as [H1 H2]. split; [lia |].
    intros z Hz. apply elem_of_cons in Hz as [-> | Hz]; [lia | auto].
Qed.

Lemma fold_left_max_in (l : list Z) (a : Z) :
  fold_left Z.max l a = a ∨ fold_left Z.max l a ∈ l.
Proof.
  revert a. induction l as [|b l IH]; intros a; simpl; [by left |].
  destruct (IH (Z.max a b)) as [H | H].
  - rewrite H. destruct (Z.max_spec a b) as [[_ ->] | [_ ->]].
    + right. by left.
    + by left.
  - right. by right.
Qed.

Lemma py_max_is_max (x : Z) (l : list Z) : is_max (py_max (x :: l)) (x :: l).
Proof.
  unfold is_max, py_max. split.
  - destruct (fold_left_max_in l x) as [-> | H]; [by left | by right].
  - intros z Hz. destruct (fold_left_max_ge l x) as [H1 H2].
    apply elem_of_cons in Hz as [-> | Hz]; auto.
Qed.

Lemma fold_left_add (l : list Z) (a : Z) :
  fold_left Z.add l a = a + foldr Z.add 0 l.
Proof.
  revert a. induction l as [|b l IH]; intros a; simpl; [lia |].
  rewrite IH. lia.
Qed.

Lemma py_sum_foldr (l : list Z) : py_sum l = foldr Z.add 0 l.
Proof. unfold py_sum. rewrite fold_left_add. lia. Qed.

(** C1. A leaf has footprint (1, 1).  An internal node has as width the
    larger of the largest child width and the number of children, and as
    height the sum of the child heights plus 1. *)
Theorem calculate_tree_size_policy (node : TreeNode) :
  match children node with
  | [] => calculate_tree_size node = (1, 1)
  | cs =>
      ∃ max_child_width,
        is_max max_child_width (map (fst ∘ calculate_tree_size) cs) ∧
        fst (calculate_tree_size node)
          = Z.max max_child_width (Z.of_nat (length cs)) ∧
        snd (calculate_tree_size node)
          = foldr Z.add 0 (map (snd ∘ calculate_tree_size) cs) + 1
  end.
Proof.
  destruct node as [n i [|c cs]]; [reflexivity |].
  cbn [children calculate_tree_size fst snd].
  exists (py_max (map fst (map calculate_tree_size (c :: cs)))).
  rewrite py_sum_foldr, !map_map. split; [| split; reflexivity].
  apply py_max_is_max.
Qed.

Lemma list_sum_foldr_Z (l : list nat) :
  Z.of_nat (list_sum l) = foldr Z.add 0 (map Z.of_nat l).
Proof. induction l as [|a l IH]; simpl; [reflexivity | lia]. Qed.

Lemma height_is_count_nodes (t : TreeNode) :
  snd (calculate_tree_size t) = Z.of_nat (count_nodes t).
Proof.
  induction t as [n i cs IH] using TreeNode_forall_ind.
  destruct cs as [|c cs]; [reflexivity |].
  cbn [calculate_tree_size count_nodes snd].
  rewrite py_sum_foldr, Nat2Z.inj_succ, list_sum_foldr_Z, !map_map.
  f_equal. unfold Z.succ. f_equal.
  induction IH as [|c' cs' Hc _ IH']; simpl; [reflexivity |].
  rewrite Hc, IH'. reflexivity.
Qed.

Lemma is_chain_size (d : nat) : ∀ t,
  is_chain d t = true →
  Forall (λ s, fst (calculate_tree_size s) = 1) (subtrees t) ∧
  calculate_tree_size t = (1, Z.of_nat d).
Proof.
  induction d as [|d IH]; intros [n i cs] H; [discriminate |].
  cbn [is_chain children] in H.
  destruct cs as [|c [|c' cs]]; [| | discriminate].
  - apply Nat.eqb_eq in H as ->. split; [| reflexivity].
    repeat constructor.
  - destruct (IH c H) as [Hall Hsz]. split.
    + cbn [subtrees map concat]. rewrite app_nil_r.
      constructor; [| exact Hall].
      cbn [calculate_tree_size map]. rewrite Hsz. reflexivity.
    + cbn [calculate_tree_size map]. rewrite Hsz.
      unfold py_max, py_sum. cbn [map fst snd fold_left length].
      f_equal; lia.
Qed.

(** C7. In a chain of ten nodes every node has width 1 and the root has
    height 10. *)
Theorem chain10_footprint (t : TreeNode) :
  is_chain 10 t = true →
  Forall (λ s, fst (calculate_tree_size s) = 1) (subtrees t) ∧
  snd (calculate_tree_size t) = 10.
Proof.
  intros H. destruct (is_chain_size 10 t H) as [Hall Hsz].
  split; [exact Hall | by rewrite Hsz].
Qed.

Lemma positions_unfold (xs ys : Z) n i cs (x y : Z) :
  positions xs ys (Node n i cs) x y =
    (n, x, y) ::
    positions_children xs ys y cs (x - Z.of_nat (length cs) * xs / 2).
Proof.
  cbn [positions]. f_equal.
  generalize (x - Z.of_nat (length cs) * xs / 2).
  induction cs as [|c cs IH]; intros sx; [reflexivity |].
  cbn [positions_children]. by rewrite <- IH.
Qed.

(** ** Running methods *)

Section Running.
Context {Image : Type}.
#[local] Existing Instance M_ret.
#[local] Existing Instance M_bind.
Implicit Types w : @World Image.

Lemma bind_Ok {A B} (m : M A) (f : A → M B) w w' (b : B) :
  (m ≫= f) w = (w', Ok b) →
  ∃ w1 a, m w = (w1, Ok a) ∧ f a w1 = (w', Ok b).
Proof.
  unfold mbind, M_bind. destruct (m w) as [w1 [a|e]]; [eauto | discriminate].
Qed.

Lemma bind_run_Ok {A B} (m : M A) (f : A → M B) w w1 (a : A) :
  m w = (w1, Ok a) → (m ≫= f) w = f a w1.
Proof. unfold mbind, M_bind. by intros ->. Qed.

Lemma bind_run_Raise {A B} (m : M A) (f : A → M B) w w1 e :
  m w = (w1, Raise e) → (m ≫= f) w = (w1, Raise e).
Proof. unfold mbind, M_bind. by intros ->. Qed.

Lemma try_except_Ok {A} (body : M A) (g : exn → exn) w w' (a : A) :
  try_except body (λ e, raise (g e)) w = (w', Ok a) → body w = (w', Ok a).
Proof.
  unfold try_except, raise.
  destruct (body w) as [w1 [a'|e]]; [done | discriminate].
Qed.

Lemma try_except_ValueError_Ok {A} (body : M A) (g : exn → exn) w w' (a : A) :
  try_except_ValueError body (λ e, raise (g e)) w = (w', Ok a) →
  body w = (w', Ok a).
Proof.
  unfold try_except_ValueError, try_except, raise.
  destruct (body w) as [w1 [a'|e]]; [done | destruct e; discriminate].
Qed.

Lemma try_except_run_Ok {A} (body : M A) h w w' (a : A) :
  body w = (w', Ok a) → try_except body h w = (w', Ok a).
Proof. unfold try_except. by intros ->. Qed.

Lemma try_except_ValueError_run_Ok {A} (body : M A) h w w' (a : A) :
  body w = (w', Ok a) → try_except_ValueError body h w = (w', Ok a).
Proof. unfold try_except_ValueError, try_except. by intros ->. Qed.

Lemma added_nil w : added w w [].
Proof. unfold added. by rewrite app_nil_r. Qed.

Lemma added_item it w : added w (add_item it w) [it].
Proof. by unfold added. Qed.

Lemma added_app w w1 w2 its1 its2 :
  added w w1 its1 → added w1 w2 its2 → added w w2 (its1 ++ its2).
Proof.
  unfold added. intros (-> & -> & -> & ->) (-> & -> & -> & ->).
  by rewrite app_assoc.
Qed.

Lemma labels_app (a b : list (@item Image)) :
  labels (a ++ b) = labels a ++ labels b.
Proof.
  induction a as [|[] a IH]; simpl; try done. by rewrite IH.
Qed.

Lemma count_shapes_app (a b : list (@item Image)) :
  count_shapes (a ++ b) = (count_shapes a + count_shapes b)%nat.
Proof. induction a as [|[] a IH]; simpl; try done; by rewrite IH. Qed.

Lemma edges_app (a b : list (@item Image)) :
  edges (a ++ b) = edges a ++ edges b.
Proof.
  induction a as [|[] a IH]; simpl; try done. by rewrite IH.
Qed.
End Running.

(** ** Drawing *)

Section Drawing.
Context {Image : Type}.
Variable repr : string → string.
#[local] Existing Instance M_ret.
#[local] Existing Instance M_bind.
Implicit Types w : @World Image.

Lemma draw_tree_unfold self n i cs x y :
  draw_tree repr self (Node n i cs) x y =
    (draw_shape repr (Node n i cs) x y ;;
     create_text x y n "black" ;;
     match cs with
     | [] => mret 80
     | _ :: _ =>
         draw_children repr self x y cs
           (x - Z.of_nat (length cs) * x_spacing self / 2) ;;
         mret (Z.of_nat (length cs) * x_spacing self)
     end : @M Image Z).
Proof. destruct cs; reflexivity. Qed.

Lemma draw_children_cons self x y child cs start_x :
  draw_children repr self x y (child :: cs) start_x =
    (start_x' ←
       try_except_ValueError
         (create_line x (y + 60 / 2)
                      (start_x + x_spacing self / 2)
                      (y + y_spacing self - 60 / 2)
                      "last" ;;
          child_width ←
            draw_tree repr self child
                      (start_x + x_spacing self / 2)
                      (y + y_spacing self);
          mret (start_x + child_width))
         (fun e => raise (ValueError
            ("Error drawing tree: " +:+ str repr e)));
     draw_children repr self x y cs start_x' : @M Image ()).
Proof. reflexivity. Qed.

Lemma assets_unfold n i cs :
  ∀ path, path ∈ assets (Node n i cs) ↔
          image_id (Node n i cs) = Some path ∨
          path ∈ concat (map assets cs).
Proof.
  intros path. cbn [assets].
  destruct (image_id (Node n i cs)) as [p|].
  - rewrite elem_of_cons. split; intros [H|H]; auto.
    + left. by subst.
    + left. by injection H.
  - split; [auto | intros [H|H]; [discriminate | done]].
Qed.

(** What a node shape adds when it is drawn. *)
Lemma draw_shape_Ok node x y w w' :
  draw_shape repr node x y w = (w', Ok tt) →
  (∀ path, image_id node = Some path →
           is_Some (preloaded_images w !! path)) ∧
  ∃ it, added w w' [it] ∧ labels [it] = [] ∧
        count_shapes [it] = 1%nat ∧ edges [it] = [].
Proof.
  unfold draw_shape. destruct (image_id node) as [path|].
  - intros H. apply try_except_Ok in H.
    apply bind_Ok in H as (w1 & image & Hget & Hcreate).
    unfold get_preloaded in Hget.
    destruct (preloaded_images w !! path) eqn:Hlookup; [| discriminate].
    injection Hget as <- <-. injection Hcreate as <-. split.
    + intros p [= <-]. by eexists.
    + eexists. split; [apply added_item | done].
  - intros H. injection H as <-. split; [discriminate |].
    eexists. split; [apply added_item | done].
Qed.

Lemma draw_children_Ok self x y cs :
  Forall (λ node, ∀ x y w w' r,
            draw_tree repr self node x y w = (w', Ok r) →
            drawn_ok self node x y w w' r) cs →
  ∀ start_x w w',
    draw_children repr self x y cs start_x w = (w', Ok tt) →
    (∀ path, path ∈ concat (map assets cs) →
             is_Some (preloaded_images w !! path)) ∧
    ∃ its, added w w' its ∧
      labels its
        = positions_children (x_spacing self) (y_spacing self) y cs start_x ∧
      count_shapes its = list_sum (map count_nodes cs) ∧
      length (edges its) = list_sum (map count_nodes cs).
Proof.
  induction 1 as [|c cs Hc _ IH]; intros start_x w w' H.
  - injection H as <-. split; [intros path Hin; inversion Hin |].
    exists []. split; [apply added_nil | done].
  - rewrite draw_children_cons in H.
    apply bind_Ok in H as (w2 & sx' & Hstep & Hrest).
    apply try_except_ValueError_Ok in Hstep.
    apply bind_Ok in Hstep as (w1 & [] & Hline & Hstep).
    injection Hline as <-.
    apply bind_Ok in Hstep as (w1' & cw & Hdraw & Hret).
    injection Hret as <- <-.
    apply Hc in Hdraw as (-> & Hpre1 & its1 & Hadd1 & Hl1 & Hs1 & He1).
    apply IH in Hrest as (Hpre2 & its2 & Hadd2 & Hl2 & Hs2 & He2).
    split.
    + intros path Hin. cbn [map concat] in Hin.
      apply elem_of_app in Hin as [Hin | Hin]; [by apply Hpre1 |].
      destruct Hadd1 as (_ & _ & Hcache & _).
      rewrite Hcache in Hpre2. by apply Hpre2.
    + eexists (_ :: its1 ++ its2). split.
      * apply (added_app _ _ _ [_] (its1 ++ its2) (added_item _ w)).
        eapply added_app; eassumption.
      * cbn [labels count_shapes edges positions_children map list_sum
             length].
        rewrite labels_app, count_shapes_app, edges_app, length_app.
        rewrite Hl1, Hl2, Hs1, Hs2, He1, He2.
        split; [done | split; [done |]].
        destruct c; simpl; lia.
Qed.

Lemma draw_tree_Ok node : ∀ self x y w w' r,
  draw_tree repr self node x y w = (w', Ok r) →
  drawn_ok self node x y w w' r.
Proof.
  induction node as [n i cs IH] using TreeNode_forall_ind.
  intros self x y w w' r H.
  rewrite draw_tree_unfold in H.
  apply bind_Ok in H as (w1 & [] & Hshape & H).
  apply draw_shape_Ok in Hshape as (Hpre1 & it & Hadd1 & Hl1 & Hs1 & He1).
  apply bind_Ok in H as (w2 & [] & Htext & H).
  injection Htext as <-.
  unfold drawn_ok, preloaded. rewrite positions_unfold.
  destruct cs as [|c cs].
  - injection H as <- <-. split; [done |]. split.
    { intros path Hin. apply assets_unfold in Hin as [Hin | Hin]; [auto |].
      inversion Hin. }
    exists [it; text_item x y n "black"]. split.
    + apply (added_app _ _ _ [it] [_] Hadd1), added_item.
    + change [it; text_item x y n "black"]
        with ([it] ++ [text_item x y n "black"]).
      rewrite labels_app, count_shapes_app, edges_app, Hl1, Hs1, He1.
      done.
  - apply bind_Ok in H as (w3 & [] & Hchildren & H).
    injection H as <- <-. split; [done |].
    eapply draw_children_Ok in Hchildren
      as (Hpre2 & its & Hadd & Hl & Hs & He);
      [| apply Forall_forall; intros node Hin; intros;
         eapply (proj1 (Forall_forall _ _) IH); eauto].
    split.
    { intros path Hin. apply assets_unfold in Hin as [Hin | Hin]; [auto |].
      destruct Hadd1 as (_ & _ & Hcache & _).
      cbn [add_item preloaded_images] in Hpre2. rewrite Hcache in Hpre2.
      by apply Hpre2. }
    exists ([it] ++ [text_item x y n "black"] ++ its). split.
    + apply (added_app _ _ _ _ _ Hadd1).
      apply (added_app _ _ _ [_] _ (added_item _ w1)). exact Hadd.
    + rewrite !labels_app, !count_shapes_app, !edges_app.
      rewrite Hl1, Hs1, He1, Hl, Hs. cbn. rewrite He. done.
Qed.
End Drawing.

(** ** Drawing returns when the assets are preloaded *)

Section Returning.
Context {Image : Type}.
Variable repr : string → string.
#[local] Existing Instance M_ret.
#[local] Existing Instance M_bind.
Implicit Types w : @World Image.

Lemma draw_shape_returns node x y w :
  (∀ path, image_id node = Some path →
           is_Some (preloaded_images w !! path)) →
  ∃ w', draw_shape repr node x y w = (w', Ok tt).
Proof.
  intros H. unfold draw_shape. destruct (image_id node) as [path|].
  - destruct (H path eq_refl) as [image Himage].
    eexists. apply try_except_run_Ok.
    erewrite bind_run_Ok; [reflexivity |].
    unfold get_preloaded. by rewrite Himage.
  - by eexists.
Qed.

Lemma draw_children_returns self x y cs :
  Forall (λ node, ∀ x y w, preloaded node w →
            ∃ w' r, draw_tree repr self node x y w = (w', Ok r)) cs →
  ∀ start_x w,
    (∀ path, path ∈ concat (map assets cs) →
             is_Some (preloaded_images w !! path)) →
    ∃ w', draw_children repr self x y cs start_x w = (w', Ok tt).
Proof.
  induction 1 as [|c cs Hc _ IH]; intros start_x w Hpre; [by eexists |].
  rewrite draw_children_cons.
  destruct (Hc (start_x + x_spacing self / 2) (y + y_spacing self)
               (add_item (line_item x (y + 60 / 2)
                            (start_x + x_spacing self / 2)
                            (y + y_spacing self - 60 / 2) "last") w))
    as (w1 & cw & Hdraw).
  { intros path Hin. apply Hpre. cbn [map concat].
    apply elem_of_app. by left. }
  pose proof (draw_tree_Ok repr _ _ _ _ _ _ _ Hdraw)
    as (_ & _ & its & (_ & _ & Hcache & _) & _).
  destruct (IH (start_x + cw) w1) as (w2 & Hrest).
  { intros path Hin. rewrite Hcache. apply Hpre. cbn [map concat].
    apply elem_of_app. by right. }
  exists w2. erewrite bind_run_Ok; [exact Hrest |].
  apply try_except_ValueError_run_Ok.
  erewrite bind_run_Ok; [| reflexivity].
  erewrite bind_run_Ok; [reflexivity | exact Hdraw].
Qed.

Lemma draw_tree_returns node : ∀ self x y w,
  preloaded node w → ∃ w' r, draw_tree repr self node x y w = (w', Ok r).
Proof.
  induction node as [n i cs IH] using TreeNode_forall_ind.
  intros self x y w Hpre. rewrite draw_tree_unfold.
  destruct (draw_shape_returns (Node n i cs) x y w) as (w1 & Hshape).
  { intros path Hid. apply Hpre, assets_unfold. by left. }
  pose proof (draw_shape_Ok repr _ _ _ _ _ Hshape)
    as (_ & it & (_ & _ & Hcache & _) & _).
  erewrite bind_run_Ok; [| exact Hshape].
  erewrite bind_run_Ok; [| reflexivity].
  destruct cs as [|c cs]; [by eexists _, _ |].
  destruct (draw_children_returns self x y (c :: cs)) with
    (start_x := x - Z.of_nat (length (c :: cs)) * x_spacing self / 2)
    (w := add_item (text_item x y n "black") w1) as (w2 & Hchildren).
  { apply Forall_forall. intros node Hin x' y' w' Hpre'.
    apply (proj1 (Forall_forall _ _) IH); auto. }
  { intros path Hin. cbn [add_item preloaded_images]. rewrite Hcache.
    apply Hpre, assets_unfold. by right. }
  erewrite bind_run_Ok; [| exact Hchildren].
  by eexists _, _.
Qed.

(** [display_tree] on a graph whose assets are preloaded. *)
Lemma display_tree_returns self w :
  preloaded (data self) w →
  ∃ w' its,
    display_tree repr self w = (w', Ok tt) ∧
    items w' = items w ++ its ∧
    preloaded_images w' = preloaded_images w ∧
    labels its = positions (x_spacing self) (y_spacing self) (data self)
                           (canvas_width self / 2) 30 ∧
    count_shapes its = count_nodes (data self) ∧
    length (edges its) = pred (count_nodes (data self)).
Proof.
  intros Hpre.
  destruct (draw_tree_returns (data self) self (canvas_width self / 2) 30
              w Hpre) as (w1 & r & Hdraw).
  pose proof (draw_tree_Ok repr _ _ _ _ _ _ _ Hdraw)
    as (_ & _ & its & (Hitems & _ & Hcache & _) & Hl & Hs & He).
  eexists _, its. split.
  - unfold display_tree. apply try_except_ValueError_run_Ok.
    erewrite bind_run_Ok; [reflexivity | exact Hdraw].
  - cbn [items preloaded_images]. done.
Qed.
End Returning.

(** ** Preloading *)

Section Preloading.
Context {Image : Type}.
Variable load_image : string → Image + string.
Variable repr : string → string.
#[local] Existing Instance M_ret.
#[local] Existing Instance M_bind.
Implicit Types w : @World Image.

Lemma preload_images_unfold n i cs w :
  preload_images load_image repr (Node n i cs) w =
    (preload_paths load_image repr
       (match image_id (Node n i cs) with Some p => [p] | None => [] end) ;;
     preload_children load_image repr cs) w.
Proof.
  cbn [preload_images]. destruct (image_id (Node n i cs)); cbn [preload_paths].
  - unfold mbind, M_bind.
    destruct (try_except _ _ w) as [w1 [[]|e]]; reflexivity.
  - reflexivity.
Qed.

Lemma preload_paths_app l1 l2 w :
  preload_paths load_image repr (l1 ++ l2) w =
    (preload_paths load_image repr l1 ;;
     preload_paths load_image repr l2) w.
Proof.
  revert w. induction l1 as [|p l1 IH]; intros w; [reflexivity |].
  cbn [app preload_paths]. unfold mbind, M_bind in *.
  destruct (try_except _ _ w) as [w1 [[]|e]]; [apply IH | reflexivity].
Qed.

Lemma preload_children_paths cs :
  Forall (λ node, ∀ w, preload_images load_image repr node w
                       = preload_paths load_image repr (assets node) w) cs →
  ∀ w, preload_children load_image repr cs w
       = preload_paths load_image repr (concat (map assets cs)) w.
Proof.
  induction 1 as [|c cs Hc _ IH]; intros w; [reflexivity |].
  cbn [preload_children map concat]. rewrite preload_paths_app.
  unfold mbind, M_bind. rewrite Hc.
  destruct (preload_paths _ _ (assets c) w) as [w1 [[]|e]];
    [apply IH | reflexivity].
Qed.

(** [preload_images] loads the assets of the tree one after the other,
    parent before children. *)
Lemma preload_images_paths node : ∀ w,
  preload_images load_image repr node w
  = preload_paths load_image repr (assets node) w.
Proof.
  induction node as [n i cs IH] using TreeNode_forall_ind. intros w.
  rewrite preload_images_unfold.
  replace (assets (Node n i cs)) with
    ((match image_id (Node n i cs) with Some p => [p] | None => [] end)
     ++ concat (map assets cs))
    by (cbn [assets]; by destruct (image_id (Node n i cs))).
  rewrite preload_paths_app. unfold mbind, M_bind.
  destruct (preload_paths _ _ _ w) as [w1 [[]|e]]; [| reflexivity].
  by apply preload_children_paths.
Qed.

(** When every path decodes, the pass returns, has opened every path in
    order, holds a handle for each, and has kept the handles it had. *)
Lemma preload_paths_returns l : ∀ w,
  all_load load_image l →
  ∃ w', preload_paths load_image repr l w = (w', Ok tt) ∧
        items w' = items w ∧
        opened w' = opened w ++ l ∧
        (∀ path, path ∈ l → is_Some (preloaded_images w' !! path)) ∧
        (∀ path, is_Some (preloaded_images w !! path) →
                 is_Some (preloaded_images w' !! path)).
Proof.
  induction l as [|p l IH]; intros w Hall.
  - exists w. rewrite app_nil_r. repeat split; auto.
    intros path Hin. inversion Hin.
  - destruct (Hall p) as [image Himage]; [by left |].
    cbn [preload_paths]. unfold mbind, M_bind, try_except, load_and_store.
    rewrite Himage.
    edestruct IH as (w' & Hrun & Hitems & Hopened & Hnew & Hold);
      [intros path Hin; apply Hall; by right |].
    exists w'. split; [exact Hrun |].
    cbn [items opened preloaded_images] in *.
    split; [done |]. split; [by rewrite Hopened, <- app_assoc |]. split.
    + intros path Hin. apply elem_of_cons in Hin as [-> | Hin]; [| auto].
      apply Hold. rewrite lookup_insert_eq. by eexists.
    + intros path [v Hv]. apply Hold.
      destruct (decide (p = path)) as [-> |].
      * rewrite lookup_insert_eq. by eexists.
      * rewrite lookup_insert_ne by done. by eexists.
Qed.

(** When a path does not decode and the paths before it do, the pass
    raises at it: the paths up to it were opened, none after it. *)
Lemma preload_paths_raises l1 a l2 cause : ∀ w,
  all_load load_image l1 →
  load_image a = inr cause →
  ∃ w', preload_paths load_image repr (l1 ++ a :: l2) w
        = (w', Raise (ValueError
             ("Failed to load image: " +:+ a +:+ ". " +:+ cause))) ∧
        items w' = items w ∧
        opened w' = opened w ++ l1 ++ [a].
Proof.
  induction l1 as [|p l1 IH]; intros w Hall Ha.
  - cbn [app preload_paths]. unfold mbind, M_bind, try_except, load_and_store.
    rewrite Ha. cbn [raise str]. eexists. split; [reflexivity | done].
  - destruct (Hall p) as [image Himage]; [by left |].
    cbn [app preload_paths]. unfold mbind, M_bind, try_except, load_and_store.
    rewrite Himage.
    edestruct IH as (w' & Hrun & Hitems & Hopened);
      [intros path Hin; apply Hall; by right | exact Ha |].
    exists w'. split; [exact Hrun |].
    cbn [items opened] in *. split; [done |].
    by rewrite Hopened, <- !app_assoc.
Qed.
End Preloading.

(** ** Spacing and construction *)

Lemma calculate_tree_size_pos (t : TreeNode) :
  1 ≤ fst (calculate_tree_size t) ∧ 1 ≤ snd (calculate_tree_size t).
Proof.
  split; [| rewrite height_is_count_nodes; destruct t; simpl; lia].
  destruct t as [n i [|c cs]]; [simpl; lia |].
  cbn [calculate_tree_size fst length]. lia.
Qed.

Lemma calculate_node_spacing_returns (cw ch : Z) (t : TreeNode) :
  calculate_node_spacing cw ch (calculate_tree_size t)
  = Ok (cw / fst (calculate_tree_size t), ch / snd (calculate_tree_size t)).
Proof.
  destruct (calculate_tree_size_pos t) as [Hw Hh].
  unfold calculate_node_spacing, floordiv.
  destruct (decide (fst (calculate_tree_size t) = 0)); [lia |].
  destruct (decide (snd (calculate_tree_size t) = 0)); [lia |].
  reflexivity.
Qed.

Section Constructing.
Context {Image : Type}.
Variable load_image : string → Image + string.
Variable repr : string → string.
#[local] Existing Instance M_ret.
#[local] Existing Instance M_bind.
Implicit Types w : @World Image.

Lemma TreeGraph_init_unfold data w :
  TreeGraph_init load_image repr data w =
    match preload_paths load_image repr (assets data)
            (add_item (window_item 0 0) w) with
    | (w', Ok _) => (w', Ok (graph_of data))
    | (w', Raise e) => (w', Raise e)
    end.
Proof.
  unfold TreeGraph_init, mbind, M_bind, lift.
  rewrite calculate_node_spacing_returns.
  cbn [create_window]. rewrite preload_images_paths. reflexivity.
Qed.

Lemma TreeGraph_new_returns data :
  all_load load_image (assets data) →
  ∃ w, TreeGraph_new load_image repr data = (w, Ok (graph_of data)) ∧
       items w = [window_item 0 0] ∧
       preloaded data w ∧
       opened w = assets data.
Proof.
  intros Hall. unfold TreeGraph_new. rewrite TreeGraph_init_unfold.
  destruct (preload_paths_returns load_image repr (assets data)
              (add_item (window_item 0 0) fresh_world) Hall)
    as (w & -> & Hitems & Hopened & Hnew & _).
  exists w. split; [reflexivity |]. split; [exact Hitems |].
  split; [exact Hnew | exact Hopened].
Qed.

Lemma TreeGraph_new_raises data l1 a l2 cause :
  assets data = l1 ++ a :: l2 →
  all_load load_image l1 →
  load_image a = inr cause →
  ∃ w, TreeGraph_new load_image repr data
       = (w, Raise (ValueError
            ("Failed to load image: " +:+ a +:+ ". " +:+ cause))) ∧
       opened w = l1 ++ [a].
Proof.
  intros Hassets Hall Ha. unfold TreeGraph_new.
  rewrite TreeGraph_init_unfold, Hassets.
  destruct (preload_paths_raises load_image repr l1 a l2 cause
              (add_item (window_item 0 0) fresh_world) Hall Ha)
    as (w & -> & _ & Hopened).
  exists w. split; [reflexivity | exact Hopened].
Qed.
End Constructing.

(** ** The coordinates handed down *)

Lemma positions_children_names (xs ys y : Z) (cs : list TreeNode) :
  Forall (λ node, ∀ x y, map (λ p, p.1.1) (positions xs ys node x y)
                         = map name (subtrees node)) cs →
  ∀ start_x, map (λ p, p.1.1) (positions_children xs ys y cs start_x)
             = map name (concat (map subtrees cs)).
Proof.
  induction 1 as [|c cs Hc _ IH]; intros start_x; [reflexivity |].
  cbn [positions_children map concat]. rewrite !map_app, Hc, IH. reflexivity.
Qed.

(** The labels name the nodes of the tree, parent before children. *)
Lemma positions_names (xs ys : Z) (node : TreeNode) : ∀ x y,
  map (λ p, p.1.1) (positions xs ys node x y) = map name (subtrees node).
Proof.
  induction node as [n i cs IH] using TreeNode_forall_ind. intros x y.
  rewrite positions_unfold. cbn [subtrees map name].
  f_equal. by apply positions_children_names.
Qed.

Lemma subtrees_length (node : TreeNode) :
  length (subtrees node) = count_nodes node.
Proof.
  induction node as [n i cs IH] using TreeNode_forall_ind.
  cbn [subtrees count_nodes length]. f_equal.
  induction IH as [|c cs Hc _ IH']; [reflexivity |].
  cbn [map concat list_sum]. rewrite length_app, Hc, IH'. reflexivity.
Qed.

Lemma positions_length (xs ys : Z) (node : TreeNode) (x y : Z) :
  length (positions xs ys node x y) = count_nodes node.
Proof.
  rewrite <- subtrees_length, <- (length_map (λ p, p.1.1)), positions_names.
  apply length_map.
Qed.

Lemma positions_children_depths (xs ys y0 : Z) (k : nat) (cs : list TreeNode) :
  Forall (λ node, ∀ x k,
            map (λ p, (p.1.1, p.2))
                (positions xs ys node x (y0 + Z.of_nat k * ys))
            = map (λ nd, (nd.1, y0 + Z.of_nat nd.2 * ys))
                (depths k node)) cs →
  ∀ start_x,
    map (λ p, (p.1.1, p.2))
        (positions_children xs ys (y0 + Z.of_nat k * ys) cs start_x)
    = map (λ nd, (nd.1, y0 + Z.of_nat nd.2 * ys))
          (concat (map (depths (S k)) cs)).
Proof.
  induction 1 as [|c cs Hc _ IH]; intros start_x; [reflexivity |].
  cbn [positions_children map concat]. rewrite !map_app, IH.
  f_equal.
  replace (y0 + Z.of_nat k * ys + ys) with (y0 + Z.of_nat (S k) * ys) by lia.
  apply Hc.
Qed.

(** A node [d] levels below a root drawn at height [y0] is at height
    [y0 + d * y_spacing]. *)
Lemma positions_depths (xs ys y0 : Z) (node : TreeNode) : ∀ x k,
  map (λ p, (p.1.1, p.2)) (positions xs ys node x (y0 + Z.of_nat k * ys))
  = map (λ nd, (nd.1, y0 + Z.of_nat nd.2 * ys)) (depths k node).
Proof.
  induction node as [n i cs IH] using TreeNode_forall_ind. intros x k.
  rewrite positions_unfold. cbn [depths map fst snd].
  f_equal. by apply positions_children_depths.
Qed.

(** ** The layout of a constructed graph *)

Section Pipeline.
Context {Image : Type}.
Variable load_image : string → Image + string.
Variable repr : string → string.
Implicit Types w : @World Image.

(** Constructing a graph whose assets decode and displaying it returns,
    and the labels on the canvas are at [positions]. *)
Lemma pipeline_returns data :
  all_load load_image (assets data) →
  ∃ w w',
    TreeGraph_new load_image repr data = (w, Ok (graph_of data)) ∧
    display_tree repr (graph_of data) w = (w', Ok tt) ∧
    labels (items w')
      = positions (x_spacing (graph_of data)) (y_spacing (graph_of data))
                  data 400 30 ∧
    count_shapes (items w') = count_nodes data ∧
    length (edges (items w')) = pred (count_nodes data).
Proof.
  intros Hall.
  destruct (TreeGraph_new_returns load_image repr data Hall)
    as (w & Hnew & Hitems & Hpre & _).
  destruct (display_tree_returns repr (graph_of data) w Hpre)
    as (w' & its & Hrun & Hitems' & _ & Hl & Hs & He).
  exists w, w'. split; [exact Hnew |]. split; [exact Hrun |].
  rewrite Hitems', Hitems. cbn [app labels count_shapes edges].
  rewrite Hl, Hs, He. done.
Qed.
End Pipeline.

(** ** The properties of the layout *)

(** C9. The height of the footprint is the number of nodes of the tree. *)
Theorem height_counts_nodes (t : TreeNode) :
  snd (calculate_tree_size t) = Z.of_nat (count_nodes t).
Proof. apply height_is_count_nodes. Qed.

(** C3, as the code has it.  The spacing is the pair of floor quotients of
    the viewport by the footprint of the tree, and deriving it returns that
    pair for every viewport and every tree: nothing is raised, whatever the
    steps come to. *)
Theorem calculate_node_spacing_never_fails (cw ch : Z) (t : TreeNode) :
  calculate_node_spacing cw ch (calculate_tree_size t)
  = Ok (cw / fst (calculate_tree_size t), ch / snd (calculate_tree_size t)).
Proof. apply calculate_node_spacing_returns. Qed.

(** C2, as the code has it.  A call of [draw_tree] that returns has returned
    80 for a leaf and, for a node with children, the number of children
    times the horizontal spacing. *)
Theorem draw_tree_returns_reserved_width {Image : Type}
    (repr : string → string) (self : TreeGraph) (node : TreeNode) (x y : Z)
    (w w' : @World Image) (r : Z) :
  draw_tree repr self node x y w = (w', Ok r) →
  match children node with
  | [] => r = 80
  | cs => r = Z.of_nat (length cs) * x_spacing self
  end.
Proof.
  intros H. apply draw_tree_Ok in H as (-> & _).
  unfold returned_width. by destruct (children node).
Qed.

(** C4, as the code has it.  Under the 800 by 600 canvas the root of the
    tree with the leaf children "Hello" and "World" is at (400, 30), the
    spacing is 400 by 200, both children are at height 30 + 200, the first
    at x = 200 and the second 80 to its right at x = 280, and a line goes
    from below the root to above each child. *)
Theorem hello_world_layout {Image : Type}
    (load_image : string → Image + string) (repr : string → string)
    (root_name : string) :
  ∃ w w',
    TreeGraph_new load_image repr (hello_world root_name)
      = (w, Ok (graph_of (hello_world root_name))) ∧
    x_spacing (graph_of (hello_world root_name)) = 400 ∧
    y_spacing (graph_of (hello_world root_name)) = 200 ∧
    display_tree repr (graph_of (hello_world root_name)) w = (w', Ok tt) ∧
    labels (items w')
      = [(root_name, 400, 30);
         ("Hello"%string, 200, 30 + 200);
         ("World"%string, 280, 30 + 200)] ∧
    edges (items w') = [(400, 60, 200, 200); (400, 60, 280, 200)].
Proof.
  eexists _, _. split; [reflexivity |].
  split; [reflexivity |]. split; [reflexivity |].
  split; [reflexivity |]. split; reflexivity.
Qed.

(** C5. Constructing a graph whose assets decode and displaying it returns,
    and the canvas then holds one label and one shape per node of the tree:
    the labels are the names of the nodes, parent before children, and there
    is one line per node other than the root. *)
Theorem one_label_and_shape_per_node {Image : Type}
    (load_image : string → Image + string) (repr : string → string)
    (data : TreeNode) :
  all_load load_image (assets data) →
  ∃ w g w',
    TreeGraph_new load_image repr data = (w, Ok g) ∧
    display_tree repr g w = (w', Ok tt) ∧
    length (labels (items w')) = count_nodes data ∧
    map (λ p, p.1.1) (labels (items w')) = map name (subtrees data) ∧
    count_shapes (items w') = count_nodes data ∧
    length (edges (items w')) = pred (count_nodes data).
Proof.
  intros Hall.
  destruct (pipeline_returns load_image repr data Hall)
    as (w & w' & Hnew & Hrun & Hl & Hs & He).
  exists w, (graph_of data), w'.
  rewrite Hl, positions_length, positions_names. done.
Qed.

(** C8. The coordinates [draw_tree] gives the nodes are decided by the tree,
    the position of its root and the spacing.  When a call returns, a call
    for the same tree at the same position returns the same width and adds
    labels at the same coordinates, on any graph with the same spacing and
    in any world with the same preloaded images, whatever the canvas holds;
    so does a second call after the first. *)
Theorem draw_tree_deterministic {Image : Type} (repr : string → string)
    (self1 self2 : TreeGraph) (node : TreeNode) (x y : Z)
    (w1 w1' w2 : @World Image) (r : Z) :
  x_spacing self1 = x_spacing self2 →
  y_spacing self1 = y_spacing self2 →
  preloaded_images w2 = preloaded_images w1 →
  draw_tree repr self1 node x y w1 = (w1', Ok r) →
  ∃ w2' its1 its2,
    draw_tree repr self2 node x y w2 = (w2', Ok r) ∧
    items w1' = items w1 ++ its1 ∧
    items w2' = items w2 ++ its2 ∧
    labels its1 = labels its2.
Proof.
  intros Hxs Hys Hcache H1.
  apply draw_tree_Ok in H1 as (-> & Hpre & its1 & (Hitems1 & _) & Hl1 & _).
  assert (preloaded node w2) as Hpre2.
  { intros path Hin. rewrite Hcache. by apply Hpre. }
  destruct (draw_tree_returns repr node self2 x y w2 Hpre2) as (w2' & r2 & H2).
  pose proof (draw_tree_Ok repr _ _ _ _ _ _ _ H2)
    as (-> & _ & its2 & (Hitems2 & _) & Hl2 & _).
  exists w2', its1, its2. rewrite H2, Hl1, Hl2, Hxs, Hys. done.
Qed.

(** C10. In the drawing of a constructed graph the label of a node at depth
    [d], the root at depth 0, is at height 30 + d * y_spacing. *)
Theorem depth_decides_height {Image : Type}
    (load_image : string → Image + string) (repr : string → string)
    (data : TreeNode) :
  all_load load_image (assets data) →
  ∃ w g w',
    TreeGraph_new load_image repr data = (w, Ok g) ∧
    display_tree repr g w = (w', Ok tt) ∧
    map (λ p, (p.1.1, p.2)) (labels (items w'))
    = map (λ nd, (nd.1, 30 + Z.of_nat nd.2 * y_spacing g)) (depths 0 data).
Proof.
  intros Hall.
  destruct (pipeline_returns load_image repr data Hall)
    as (w & w' & Hnew & Hrun & Hl & _).
  exists w, (graph_of data), w'. split; [exact Hnew |].
  split; [exact Hrun |]. rewrite Hl.
  pose proof (positions_depths (x_spacing (graph_of data))
                (y_spacing (graph_of data)) 30 data 400 0) as Hd.
  replace (30 + Z.of_nat 0 * y_spacing (graph_of data)) with 30 in Hd
    by (simpl; lia).
  exact Hd.
Qed.

(** ** The properties at the example inputs *)

(** A check that computes is enough for [all_load]. *)
Lemma all_load_check {Image : Type} (load_image : string → Image + string)
    (l : list string) :
  forallb (λ path, match load_image path with
                   | inl _ => true
                   | inr _ => false
                   end) l = true →
  all_load load_image l.
Proof.
  intros H path Hin. apply list_elem_of_In in Hin.
  pose proof (proj1 (forallb_forall _ l) H path Hin) as Hp.
  cbv beta in Hp.
  destruct (load_image path) as [image|]; [by exists image | discriminate].
Qed.

Lemma chain10_footprint_witness :
  is_chain 10 chain10 = true ∧
  (Forall (λ s, fst (calculate_tree_size s) = 1) (subtrees chain10) ∧
   snd (calculate_tree_size chain10) = 10).
Proof.
  split; [reflexivity | apply (chain10_footprint chain10); reflexivity].
Defined.

Lemma draw_tree_returns_reserved_width_witness :
  let self := graph_of (hello_world "") in
  let run := draw_tree demo_repr self (hello_world "") 400 30
               (@fresh_world string) in
  run = (run.1, Ok 800) ∧
  match children (hello_world "") with
  | [] => 800 = 80
  | cs => 800 = Z.of_nat (length cs) * x_spacing self
  end.
Proof.
  intros self run. split; [reflexivity |].
  apply (draw_tree_returns_reserved_width demo_repr self (hello_world "")
           400 30 fresh_world run.1 800).
  reflexivity.
Defined.

(** C2 fails on the code: drawn under the 800 by 600 canvas, the root of
    "Hello" and "World" returns 800, two times the spacing of 400, while its
    children return 80 each. *)
Lemma hello_world_width_is_not_sum :
  let self := graph_of (hello_world "") in
  let w := @fresh_world string in
  (draw_tree demo_repr self (hello_world "") 400 30 w).2 = Ok 800 ∧
  (draw_tree demo_repr self (Node "Hello" None []) 200 230 w).2 = Ok 80 ∧
  (draw_tree demo_repr self (Node "World" None []) 280 230 w).2 = Ok 80 ∧
  800 ≠ 80 + 80.
Proof. repeat split; try reflexivity. discriminate. Qed.

(** C3 fails on the code: for a 1 by 1 viewport and the tree of "Hello" and
    "World" the spacing (0, 0) is returned, nothing is raised; and the graph
    of a root with 801 leaves is constructed with the spacing (0, 0) under
    the 800 by 600 canvas and is drawn with it. *)
Lemma zero_spacing_is_returned :
  calculate_node_spacing 1 1 (calculate_tree_size (hello_world ""))
    = Ok (0, 0) ∧
  ∃ w g w',
    TreeGraph_new demo_load demo_repr wide_tree = (w, Ok g) ∧
    x_spacing g = 0 ∧ y_spacing g = 0 ∧
    display_tree demo_repr g w = (w', Ok tt).
Proof.
  split; [reflexivity |].
  assert (all_load demo_load (assets wide_tree)) as Hall
    by (apply all_load_check; vm_compute; reflexivity).
  destruct (pipeline_returns demo_load demo_repr wide_tree Hall)
    as (w & w' & Hnew & Hrun & _).
  exists w, (graph_of wide_tree), w'.
  split; [exact Hnew |]. split; [vm_compute; reflexivity |].
  split; [vm_compute; reflexivity | exact Hrun].
Qed.

(** C4 fails on the code: the children are at x = 200 and x = 280, both to
    the left of the root at x = 400. *)
Lemma hello_world_not_symmetric :
  ∃ w g w',
    TreeGraph_new demo_load demo_repr (hello_world "") = (w, Ok g) ∧
    display_tree demo_repr g w = (w', Ok tt) ∧
    labels (items w')
      = [(""%string, 400, 30); ("Hello"%string, 200, 230);
         ("World"%string, 280, 230)] ∧
    400 - 200 ≠ 280 - 400.
Proof.
  eexists _, _, _. split; [reflexivity |]. split; [reflexivity |].
  split; [reflexivity | discriminate].
Qed.

Lemma one_label_and_shape_per_node_witness :
  all_load demo_load (assets tree_data) ∧
  ∃ (w : @World string) g w',
    TreeGraph_new demo_load demo_repr tree_data = (w, Ok g) ∧
    display_tree demo_repr g w = (w', Ok tt) ∧
    length (labels (items w')) = count_nodes tree_data ∧
    map (λ p, p.1.1) (labels (items w')) = map name (subtrees tree_data) ∧
    count_shapes (items w') = count_nodes tree_data ∧
    length (edges (items w')) = pred (count_nodes tree_data).
Proof.
  assert (all_load demo_load (assets tree_data)) as Hall
    by (apply all_load_check; reflexivity).
  split; [exact Hall |].
  apply (one_label_and_shape_per_node demo_load demo_repr tree_data Hall).
Defined.

Lemma draw_tree_deterministic_witness :
  let self := graph_of tree_data in
  let w1 := (TreeGraph_new demo_load demo_repr tree_data).1 in
  let first := draw_tree demo_repr self tree_data 400 30 w1 in
  x_spacing self = x_spacing self ∧
  y_spacing self = y_spacing self ∧
  preloaded_images first.1 = preloaded_images w1 ∧
  first = (first.1, Ok 800) ∧
  ∃ w2' its1 its2,
    draw_tree demo_repr self tree_data 400 30 first.1 = (w2', Ok 800) ∧
    items first.1 = items w1 ++ its1 ∧
    items w2' = items first.1 ++ its2 ∧
    labels its1 = labels its2.
Proof.
  intros self w1 first.
  split; [reflexivity |]. split; [reflexivity |].
  split; [reflexivity |]. split; [reflexivity |].
  apply (draw_tree_deterministic demo_repr self self tree_data 400 30
           w1 first.1 first.1 800); reflexivity.
Defined.

Lemma depth_decides_height_witness :
  all_load demo_load (assets tree_data) ∧
  ∃ (w : @World string) g w',
    TreeGraph_new demo_load demo_repr tree_data = (w, Ok g) ∧
    display_tree demo_repr g w = (w', Ok tt) ∧
    map (λ p, (p.1.1, p.2)) (labels (items w'))
    = map (λ nd, (nd.1, 30 + Z.of_nat nd.2 * y_spacing g))
          (depths 0 tree_data).
Proof.
  assert (all_load demo_load (assets tree_data)) as Hall
    by (apply all_load_check; reflexivity).
  split; [exact Hall |].
  apply (depth_decides_height demo_load demo_repr tree_data Hall).
Defined.

(** ** Further properties: the footprint and the spacing *)

Lemma fold_left_max_foldr (l : list Z) (a : Z) :
  fold_left Z.max l a = foldr Z.max a l.
Proof.
  revert a. induction l as [|b l IH]; intros a; [reflexivity |].
  cbn [fold_left foldr]. rewrite IH. clear IH.
  induction l as [|c l IH]; cbn [foldr]; lia.
Qed.

Lemma widths_max_branching (cs : list TreeNode) (a : Z) :
  Forall (λ t, fst (calculate_tree_size t)
               = Z.max 1 (Z.of_nat (max_branching t))) cs →
  1 ≤ a →
  foldr Z.max a (map fst (map calculate_tree_size cs))
  = Z.max a (Z.of_nat (foldr Nat.max O (map max_branching cs))).
Proof.
  intros Hcs Ha. induction Hcs as [|c cs Hc _ IH]; cbn [map foldr]; [lia |].
  rewrite IH, Hc. lia.
Qed.

Lemma width_is_max_branching (t : TreeNode) :
  fst (calculate_tree_size t) = Z.max 1 (Z.of_nat (max_branching t)).
Proof.
  induction t as [n i cs IH] using TreeNode_forall_ind.
  destruct cs as [|c cs]; [reflexivity |].
  cbn [calculate_tree_size fst max_branching py_max map].
  inversion IH as [|? ? Hc Hcs]; subst.
  rewrite fold_left_max_foldr, (widths_max_branching cs _ Hcs), Hc by lia.
  cbn [foldr length]. lia.
Qed.

(** X1. The width of the footprint is the largest number of children any
    node of the tree has, and 1 for a single leaf; it is not the number of
    leaves nor the breadth of a level. *)
Theorem footprint_width_is_max_branching (t : TreeNode) :
  fst (calculate_tree_size t) = Z.max 1 (Z.of_nat (max_branching t)).
Proof. apply width_is_max_branching. Qed.

Lemma div_zero_iff (a b : Z) : 0 < a → 0 < b → (a / b = 0 ↔ a < b).
Proof.
  intros Ha Hb. split.
  - intros H. destruct (Z.lt_ge_cases a b) as [|Hge]; [done |].
    pose proof (Z.div_le_mono b a b Hb Hge) as Hle.
    rewrite Z.div_same in Hle by lia. lia.
  - intros H. apply Z.div_small. lia.
Qed.

(** X2. Under the 800 by 600 canvas the spacing is never negative; the
    horizontal spacing is 0 exactly when some node has more than 800
    children, and the vertical spacing is 0 exactly when the tree has more
    than 600 nodes. *)
Theorem spacing_vanishes_for_large_trees (t : TreeNode) :
  ∃ xs ys,
    calculate_node_spacing 800 600 (calculate_tree_size t) = Ok (xs, ys) ∧
    0 ≤ xs ∧ 0 ≤ ys ∧
    (xs = 0 ↔ (800 < max_branching t)%nat) ∧
    (ys = 0 ↔ (600 < count_nodes t)%nat).
Proof.
  eexists _, _. split; [apply calculate_node_spacing_returns |].
  destruct (calculate_tree_size_pos t) as [Hw Hh].
  split; [apply Z.div_pos; lia |]. split; [apply Z.div_pos; lia |].
  rewrite !div_zero_iff by lia.
  rewrite width_is_max_branching, height_is_count_nodes. lia.
Qed.

(** ** Further properties: drawing without a preloaded asset *)

Section Failing.
Context {Image : Type}.
Variable repr : string → string.
#[local] Existing Instance M_ret.
#[local] Existing Instance M_bind.
Implicit Types w : @World Image.

Lemma first_missing_unfold has n i cs :
  first_missing has (Node n i cs) =
    match image_id (Node n i cs) with
    | Some path =>
        if has path then first_missing_below has cs else Some (O, path)
    | None => first_missing_below has cs
    end.
Proof. reflexivity. Qed.

Lemma has_preloaded_true w path :
  has_preloaded w path = true ↔ is_Some (preloaded_images w !! path).
Proof. unfold has_preloaded. apply bool_decide_eq_true. Qed.

Lemma draw_shape_run node x y w :
  draw_shape repr node x y w =
    match image_id node with
    | Some path =>
        match preloaded_images w !! path with
        | Some image => (add_item (image_item x y image) w, Ok tt)
        | None =>
            (w, Raise (ValueError
                  ("Failed to load image: " +:+ path +:+ ". "
                   +:+ repr path)))
        end
    | None =>
        (add_item (rectangle_item (x - 40) (y - 30) (x + 40) (y + 30)
                     "lightblue") w, Ok tt)
    end.
Proof.
  unfold draw_shape. destruct (image_id node) as [path|]; [| reflexivity].
  unfold try_except, mbind, M_bind, get_preloaded.
  by destruct (preloaded_images w !! path).
Qed.

(** Nothing is missing exactly when the assets are preloaded. *)
Lemma first_missing_below_None has w cs :
  (∀ p, has p = has_preloaded w p) →
  Forall (λ node, first_missing has node = None → preloaded node w) cs →
  first_missing_below has cs = None →
  ∀ path, path ∈ concat (map assets cs) →
          is_Some (preloaded_images w !! path).
Proof.
  intros Hhas. induction 1 as [|c cs Hc _ IH]; intros Hnone path Hin.
  - inversion Hin.
  - cbn [first_missing_below] in Hnone.
    destruct (first_missing has c) as [[d p]|] eqn:Hfirst; [discriminate |].
    cbn [map concat] in Hin. apply elem_of_app in Hin as [Hin | Hin].
    + by apply Hc.
    + by apply IH.
Qed.

Lemma first_missing_None has w node :
  (∀ p, has p = has_preloaded w p) →
  first_missing has node = None → preloaded node w.
Proof.
  intros Hhas. induction node as [n i cs IH] using TreeNode_forall_ind.
  rewrite first_missing_unfold. intros Hnone path Hin.
  apply assets_unfold in Hin.
  destruct (image_id (Node n i cs)) as [p|].
  - destruct (has p) eqn:Hp; [| discriminate].
    destruct Hin as [[= <-] | Hin].
    + apply has_preloaded_true. by rewrite <- Hhas.
    + by eapply first_missing_below_None.
  - destruct Hin as [Hin | Hin]; [discriminate |].
    by eapply first_missing_below_None.
Qed.

Lemma draw_children_raises self x y cs :
  Forall (λ node, ∀ has x y w d path,
            (∀ p, has p = has_preloaded w p) →
            first_missing has node = Some (d, path) →
            ∃ w' its,
              draw_tree repr self node x y w
              = (w', Raise (ValueError (draw_error repr d path))) ∧
              added w w' its) cs →
  ∀ has start_x w d path,
    (∀ p, has p = has_preloaded w p) →
    first_missing_below has cs = Some (d, path) →
    ∃ w' its,
      draw_children repr self x y cs start_x w
      = (w', Raise (ValueError (draw_error repr d path))) ∧
      added w w' its.
Proof.
  induction 1 as [|c cs Hc _ IH]; intros has start_x w d path Hhas Hfirst;
    [discriminate |].
  cbn [first_missing_below] in Hfirst. rewrite draw_children_cons.
  set (ln := @line_item Image x (y + 60 / 2) (start_x + x_spacing self / 2)
               (y + y_spacing self - 60 / 2) "last").
  set (w1 := add_item ln w).
  destruct (first_missing has c) as [[d' p]|] eqn:Hc1.
  - injection Hfirst as <- <-.
    destruct (Hc has (start_x + x_spacing self / 2) (y + y_spacing self)
                w1 d' p Hhas Hc1) as (w' & its & Hrun & Hadd).
    exists w', (ln :: its). split.
    + unfold mbind, M_bind, try_except_ValueError, try_except, create_line.
      fold ln w1. unfold mbind, M_bind in Hrun. rewrite Hrun. reflexivity.
    + apply (added_app _ _ _ [ln] its (added_item ln w) Hadd).
  - assert (preloaded c w1) as Hpre
      by (by apply (first_missing_None has)).
    destruct (draw_tree_returns repr c self (start_x + x_spacing self / 2)
                (y + y_spacing self) w1 Hpre) as (w2 & cw & Hdraw).
    pose proof (draw_tree_Ok repr _ _ _ _ _ _ _ Hdraw)
      as (_ & _ & its1 & Hadd1 & _).
    destruct (IH has (start_x + cw) w2 d path) as (w' & its & Hrun & Hadd);
      [| exact Hfirst |].
    { intros p0. rewrite Hhas. unfold has_preloaded.
      destruct Hadd1 as (_ & _ & -> & _). reflexivity. }
    exists w', (ln :: its1 ++ its). split.
    + unfold mbind, M_bind, try_except_ValueError, try_except, create_line.
      fold ln w1. rewrite Hdraw. exact Hrun.
    + apply (added_app _ _ _ [ln] _ (added_item ln w)).
      eapply added_app; eassumption.
Qed.

(** When an asset is missing, [draw_tree] raises for the first node that
    lacks one, the message wrapped once per level, and has only added to
    the canvas. *)
Lemma draw_tree_raises node : ∀ self has x y w d path,
  (∀ p, has p = has_preloaded w p) →
  first_missing has node = Some (d, path) →
  ∃ w' its,
    draw_tree repr self node x y w
    = (w', Raise (ValueError (draw_error repr d path))) ∧
    added w w' its.
Proof.
  induction node as [n i cs IH] using TreeNode_forall_ind.
  intros self has x y w d path Hhas Hfirst.
  rewrite first_missing_unfold in Hfirst. rewrite draw_tree_unfold.
  unfold mbind at 1, M_bind at 1. rewrite draw_shape_run.
  assert (∀ w1 it,
            added w w1 [it] →
            first_missing_below has cs = Some (d, path) →
            ∃ w' its,
              (create_text x y n "black" ;;
               match cs with
               | [] => mret 80
               | _ :: _ =>
                   draw_children repr self x y cs
                     (x - Z.of_nat (length cs) * x_spacing self / 2) ;;
                   mret (Z.of_nat (length cs) * x_spacing self)
               end : @M Image Z) w1
              = (w', Raise (ValueError (draw_error repr d path))) ∧
              added w w' its) as Hbelow.
  { intros w1 it Hadd1 Hb. destruct cs as [|c cs]; [discriminate |].
    destruct (draw_children_raises self x y (c :: cs)) with
      (has := has)
      (start_x := x - Z.of_nat (length (c :: cs)) * x_spacing self / 2)
      (w := add_item (text_item x y n "black") w1) (d := d) (path := path)
      as (w' & its & Hrun & Hadd); [| | exact Hb |].
    { apply Forall_forall. intros node Hin. intros.
      eapply (proj1 (Forall_forall _ _) IH); eauto. }
    { intros p0. rewrite Hhas. unfold has_preloaded.
      destruct Hadd1 as (_ & _ & Hcache & _).
      cbn [add_item preloaded_images]. by rewrite Hcache. }
    exists w', ([it] ++ [text_item x y n "black"] ++ its). split.
    - unfold mbind, M_bind, create_text. unfold mbind, M_bind in Hrun.
      by rewrite Hrun.
    - apply (added_app _ _ _ _ _ Hadd1).
      apply (added_app _ _ _ [_] _ (added_item _ w1) Hadd). }
  destruct (image_id (Node n i cs)) as [p|].
  - destruct (has p) eqn:Hp.
    + rewrite Hhas in Hp. apply has_preloaded_true in Hp as [image Himage].
      rewrite Himage. eapply Hbelow; [apply added_item | exact Hfirst].
    + injection Hfirst as <- <-.
      assert (preloaded_images w !! p = None) as ->.
      { rewrite Hhas in Hp. unfold has_preloaded in Hp.
        apply bool_decide_eq_false in Hp.
        destruct (preloaded_images w !! p) eqn:E; [| done].
        exfalso. apply Hp. by eexists. }
      exists w, []. split; [reflexivity | apply added_nil].
  - eapply Hbelow; [apply added_item | exact Hfirst].
Qed.

(** Every call of [draw_tree] either returns or raises a [ValueError], and
    either way it has only added items to the canvas. *)
Lemma draw_tree_outcome node self x y w w' res :
  draw_tree repr self node x y w = (w', res) →
  (∃ its, added w w' its) ∧
  ((∃ r, res = Ok r ∧ preloaded node w) ∨
   (∃ d path, first_missing (has_preloaded w) node = Some (d, path) ∧
              res = Raise (ValueError (draw_error repr d path)))).
Proof.
  intros H.
  destruct (first_missing (has_preloaded w) node) as [[d path]|] eqn:Hfirst.
  - destruct (draw_tree_raises node self (has_preloaded w) x y w d path)
      as (w1 & its & Hrun & Hadd); [done | exact Hfirst |].
    rewrite Hrun in H. injection H as <- <-.
    split; [by exists its |]. right. by exists d, path.
  - assert (preloaded node w) as Hpre
      by (by apply (first_missing_None (has_preloaded w))).
    destruct (draw_tree_returns repr node self x y w Hpre)
      as (w1 & r & Hrun).
    pose proof (draw_tree_Ok repr _ _ _ _ _ _ _ Hrun)
      as (_ & _ & its & Hadd & _).
    rewrite Hrun in H. injection H as <- <-.
    split; [by exists its |]. left. by exists r.
Qed.
End Failing.

Section Displaying.
Context {Image : Type}.
Variable repr : string → string.
#[local] Existing Instance M_ret.
#[local] Existing Instance M_bind.
Implicit Types w : @World Image.

Lemma display_tree_raises self w d path :
  first_missing (has_preloaded w) (data self) = Some (d, path) →
  ∃ w' its,
    display_tree repr self w
    = (w', Raise (ValueError
         ("Error displaying tree: " +:+ draw_error repr d path))) ∧
    added w w' its.
Proof.
  intros Hfirst.
  destruct (draw_tree_raises repr (data self) self (has_preloaded w)
              (canvas_width self / 2) 30 w d path)
    as (w' & its & Hrun & Hadd); [done | exact Hfirst |].
  exists w', its. split; [| exact Hadd].
  unfold display_tree, try_except_ValueError, try_except, mbind, M_bind.
  by rewrite Hrun.
Qed.

Lemma display_tree_Ok self w w' :
  display_tree repr self w = (w', Ok tt) →
  ∃ w1 its,
    draw_tree repr self (data self) (canvas_width self / 2) 30 w
    = (w1, Ok (returned_width (x_spacing self) (data self))) ∧
    added w w1 its ∧
    items w' = items w1 ∧
    preloaded_images w' = preloaded_images w1 ∧
    opened w' = opened w1 ∧
    scrollregion w'
    = Some ((- returned_width (x_spacing self) (data self)) / 2, -30,
            returned_width (x_spacing self) (data self) / 2,
            canvas_height self).
Proof.
  intros H. unfold display_tree in H. apply try_except_ValueError_Ok in H.
  apply bind_Ok in H as (w1 & r & Hdraw & Hconf).
  pose proof (draw_tree_Ok repr _ _ _ _ _ _ _ Hdraw)
    as (-> & _ & its & Hadd & _).
  injection Hconf as <-. by exists w1, its.
Qed.

Lemma draw_tree_half_drawn node self x y w d path :
  first_missing (has_preloaded w) node = Some (S d, path) →
  ∃ w' it its,
    draw_tree repr self node x y w
    = (w', Raise (ValueError (draw_error repr (S d) path))) ∧
    count_shapes [it] = 1%nat ∧
    items w' = items w ++ it :: text_item x y (name node) "black" :: its.
Proof.
  destruct node as [n i cs]. intros Hfirst.
  destruct (draw_tree_raises repr (Node n i cs) self (has_preloaded w)
              x y w (S d) path) as (w' & its0 & Hrun & _);
    [done | exact Hfirst |].
  exists w'. rewrite Hrun.
  rewrite draw_tree_unfold in Hrun. unfold mbind at 1, M_bind at 1 in Hrun.
  rewrite draw_shape_run in Hrun. rewrite first_missing_unfold in Hfirst.
  assert (∀ it,
            (create_text x y n "black" ;;
             match cs with
             | [] => mret 80
             | _ :: _ =>
                 draw_children repr self x y cs
                   (x - Z.of_nat (length cs) * x_spacing self / 2) ;;
                 mret (Z.of_nat (length cs) * x_spacing self)
             end : @M Image Z) (add_item it w)
            = (w', Raise (ValueError (draw_error repr (S d) path))) →
            ∃ its, items w' = items w ++ it :: text_item x y n "black" :: its)
    as Hbelow.
  { intros it H. unfold mbind at 1, M_bind at 1 in H. cbn [create_text] in H.
    destruct cs as [|c cs]; [discriminate |].
    unfold mbind, M_bind in H.
    destruct (draw_children repr self x y (c :: cs) _ _)
      as [w2 [[]|e]] eqn:Hchildren; [discriminate |].
    injection H as -> _.
    destruct (first_missing_below (has_preloaded w) (c :: cs))
      as [[d0 p0]|] eqn:Hb.
    - destruct (draw_children_raises (Image:=Image) repr self x y
                  (c :: cs)) with
        (has := has_preloaded w)
        (start_x := x - Z.of_nat (length (c :: cs)) * x_spacing self / 2)
        (w := add_item (text_item x y n "black") (add_item it w))
        (d := d0) (path := p0) as (w3 & its & Hrun' & Hadd);
        [| done | exact Hb |].
      { apply Forall_forall. intros node _. intros.
        eapply draw_tree_raises; eauto. }
      rewrite Hchildren in Hrun'. injection Hrun' as <- _.
      exists its. destruct Hadd as (-> & _).
      cbn [add_item items]. by rewrite <- !app_assoc.
    - exfalso. destruct (image_id (Node n i (c :: cs))) as [p|];
        [destruct (has_preloaded w p) |]; congruence. }
  destruct (image_id (Node n i cs)) as [p|].
  - destruct (has_preloaded w p) eqn:Hp; [| discriminate].
    apply has_preloaded_true in Hp as [image Himage].
    rewrite Himage in Hrun. destruct (Hbelow _ Hrun) as (its & Hitems).
    eexists _, its. split; [reflexivity |]. split; [| exact Hitems].
    reflexivity.
  - destruct (Hbelow _ Hrun) as (its & Hitems).
    eexists _, its. split; [reflexivity |]. split; [| exact Hitems].
    reflexivity.
Qed.
End Displaying.

Section Preloaded.
Context {Image : Type}.
Variable load_image : string → Image + string.
Variable repr : string → string.
#[local] Existing Instance M_ret.
#[local] Existing Instance M_bind.
Implicit Types w : @World Image.

(** A pass that returned found every path decodable, and the dictionary
    holds for each of them the handle it decoded to, and beside them what
    it held before. *)
Lemma preload_paths_Ok l : ∀ w w',
  preload_paths load_image repr l w = (w', Ok tt) →
  all_load load_image l ∧
  items w' = items w ∧
  scrollregion w' = scrollregion w ∧
  opened w' = opened w ++ l ∧
  (∀ path image,
     preloaded_images w' !! path = Some image ↔
     (path ∈ l ∧ load_image path = inl image) ∨
     ((path ∉ l) ∧ preloaded_images w !! path = Some image)).
Proof.
  induction l as [|p l IH]; intros w w' H.
  - injection H as <-. rewrite app_nil_r.
    split; [intros path Hin; inversion Hin |]. repeat split; auto.
    + intros Hl. right. split; [apply not_elem_of_nil | done].
    + intros [[Hin _] | [_ Hl]]; [inversion Hin | done].
  - cbn [preload_paths] in H.
    unfold mbind, M_bind, try_except, load_and_store in H.
    destruct (load_image p) as [image0|cause] eqn:Hp; [| discriminate].
    apply IH in H as (Hall & Hitems & Hscroll & Hopened & Hlookup).
    cbn [items scrollregion opened preloaded_images] in *.
    split; [| split; [done | split; [done | split]]].
    + intros path Hin. apply elem_of_cons in Hin as [-> | Hin]; eauto.
    + by rewrite Hopened, <- app_assoc.
    + intros path image. rewrite Hlookup, elem_of_cons.
      destruct (decide (path = p)) as [-> | Hne].
      * rewrite lookup_insert_eq. split.
        -- intros [[Hin Hload] | [Hnin [= <-]]]; left; split; auto.
        -- intros [[_ Hload] | [Hnin _]]; [| exfalso; apply Hnin; by left].
           destruct (decide (p ∈ l)) as [Hin | Hnin]; [by left |].
           right. split; [done |]. congruence.
      * rewrite lookup_insert_ne by done. split.
        -- intros [[Hin Hload] | [Hnin Hl]]; [left | right]; split; auto.
           intros [? | ?]; done.
        -- intros [[[? | Hin] Hload] | [Hnin Hl]]; [done | left | right];
             split; auto.
Qed.

Lemma TreeGraph_new_Ok data w g :
  TreeGraph_new load_image repr data = (w, Ok g) →
  g = graph_of data ∧
  all_load load_image (assets data) ∧
  items w = [window_item 0 0] ∧
  scrollregion w = None ∧
  opened w = assets data ∧
  (∀ path image,
     preloaded_images w !! path = Some image ↔
     path ∈ assets data ∧ load_image path = inl image).
Proof.
  unfold TreeGraph_new. rewrite TreeGraph_init_unfold. intros H.
  destruct (preload_paths _ _ _ _) as [w1 [[]|e]] eqn:Hrun; [| discriminate].
  injection H as <- <-.
  apply preload_paths_Ok in Hrun
    as (Hall & Hitems & Hscroll & Hopened & Hlookup).
  do 5 (split; [done |]).
  intros path image. rewrite Hlookup. split.
  - intros [? | [_ Hl]]; [done |]. cbn in Hl. by rewrite lookup_empty in Hl.
  - intros ?. by left.
Qed.
End Preloaded.

(** ** Further properties: where the nodes are put *)

Lemma depths_below_bound (k m : nat) (cs : list TreeNode) :
  Forall (λ t, ∀ k, Forall (λ nd : string * nat,
                      (k ≤ nd.2 < k + count_nodes t)%nat) (depths k t)) cs →
  (list_sum (map count_nodes cs) ≤ m)%nat →
  Forall (λ nd : string * nat, (k ≤ nd.2 < k + S m)%nat)
         (concat (map (depths (S k)) cs)).
Proof.
  induction 1 as [|c cs Hc _ IH]; intros Hm; [constructor |].
  cbn [map concat] in *. simpl in Hm. apply Forall_app. split.
  - eapply Forall_impl; [apply (Hc (S k)) |].
    intros nd Hnd. cbv beta in *. lia.
  - apply IH. lia.
Qed.

(** A node of a tree of [N] nodes is less than [N] levels below the root. *)
Lemma depths_bound (t : TreeNode) : ∀ k,
  Forall (λ nd : string * nat, (k ≤ nd.2 < k + count_nodes t)%nat)
         (depths k t).
Proof.
  induction t as [n i cs IH] using TreeNode_forall_ind. intros k.
  cbn [depths count_nodes]. constructor; [simpl; lia |].
  by apply depths_below_bound.
Qed.

Lemma chain_positions (xs ys : Z) (d : nat) : ∀ t x y,
  is_chain d t = true →
  Forall (λ p : string * Z * Z, p.1.2 = x) (positions xs ys t x y).
Proof.
  induction d as [|d IH]; intros [n i cs] x y H; [discriminate |].
  cbn [is_chain children] in H. rewrite positions_unfold.
  destruct cs as [|c [|c' cs]]; [| | discriminate].
  - by repeat constructor.
  - constructor; [done |]. cbn [positions_children]. rewrite app_nil_r.
    replace (x - Z.of_nat (length [c]) * xs / 2 + xs / 2) with x
      by (cbn [length]; rewrite Z.mul_1_l; lia).
    by apply IH.
Qed.

Lemma returned_width_root_bound (t : TreeNode) :
  0 ≤ returned_width (x_spacing (graph_of t)) t ≤ 800.
Proof.
  destruct t as [n i [|c cs]]; [cbn; lia |].
  unfold returned_width. cbn [children x_spacing graph_of].
  set (k := Z.of_nat (length (c :: cs))).
  set (W := fst (calculate_tree_size (Node n i (c :: cs)))).
  assert (1 ≤ k ≤ W) as Hk.
  { subst k W. cbn [calculate_tree_size fst length]. lia. }
  pose proof (Z.mul_div_le 800 W ltac:(lia)) as Hle.
  pose proof (Z.div_pos 800 W ltac:(lia) ltac:(lia)) as Hpos.
  nia.
Qed.

Section Placing.
Context {Image : Type}.
Variable load_image : string → Image + string.
Variable repr : string → string.
Implicit Types w : @World Image.

(** X3. In the drawing of a constructed graph every label is at a height
    from 30 on and at least one vertical step above 630: the tree never
    runs out of the canvas height by more than the 30 of its top margin. *)
Theorem labels_fit_vertically (data : TreeNode) :
  all_load load_image (assets data) →
  ∃ w g w',
    TreeGraph_new load_image repr data = (w, Ok g) ∧
    display_tree repr g w = (w', Ok tt) ∧
    Forall (λ p : string * Z * Z, 30 ≤ p.2 ∧ p.2 + y_spacing g ≤ 630)
           (labels (items w')).
Proof.
  intros Hall.
  destruct (pipeline_returns load_image repr data Hall)
    as (w & w' & Hnew & Hrun & Hl & _).
  exists w, (graph_of data), w'. split; [exact Hnew |].
  split; [exact Hrun |]. rewrite Hl.
  set (ys := y_spacing (graph_of data)).
  pose proof (positions_depths (x_spacing (graph_of data)) ys 30 data 400 0)
    as Hd.
  replace (30 + Z.of_nat 0 * ys) with 30 in Hd by (simpl; lia).
  apply (proj1 (List.Forall_map (λ p : string * Z * Z, (p.1.1, p.2))
                  (λ q : string * Z, 30 ≤ q.2 ∧ q.2 + ys ≤ 630) _)).
  rewrite Hd. apply List.Forall_map.
  eapply Forall_impl; [apply (depths_bound data 0) |].
  intros [nm d] Hnd. cbn [fst snd] in *.
  assert (ys = 600 / Z.of_nat (count_nodes data)) as Hys
    by (subst ys; cbn [y_spacing graph_of];
        by rewrite height_is_count_nodes).
  destruct data as [n i cs]. cbn [count_nodes] in *.
  set (N := Z.of_nat (S (list_sum (map count_nodes cs)))) in *.
  assert (1 ≤ N) as HN by (subst N; lia).
  assert (Z.of_nat d + 1 ≤ N) as Hdn by (subst N; lia).
  pose proof (Z.mul_div_le 600 N ltac:(lia)) as Hle.
  pose proof (Z.div_pos 600 N ltac:(lia) ltac:(lia)) as Hpos.
  rewrite <- Hys in *. nia.
Qed.

(** X4. A chain is drawn straight down: in the drawing of a constructed
    graph whose tree is a chain, every label is at x = 400, below the
    root. *)
Theorem chain_is_drawn_straight_down (d : nat) (data : TreeNode) :
  is_chain d data = true →
  all_load load_image (assets data) →
  ∃ w g w',
    TreeGraph_new load_image repr data = (w, Ok g) ∧
    display_tree repr g w = (w', Ok tt) ∧
    Forall (λ p : string * Z * Z, p.1.2 = 400) (labels (items w')).
Proof.
  intros Hchain Hall.
  destruct (pipeline_returns load_image repr data Hall)
    as (w & w' & Hnew & Hrun & Hl & _).
  exists w, (graph_of data), w'. split; [exact Hnew |].
  split; [exact Hrun |]. rewrite Hl. by eapply chain_positions.
Qed.

(** X9. After [display_tree] on a constructed graph the scroll region is
    ((-W) // 2, -30, W // 2, 600), for the width W that [draw_tree]
    returned for the root; W is between 0 and 800, so the region is centred
    on x = 0 and ends at or before x = 400, where the root is drawn. *)
Theorem scroll_region_after_display (data : TreeNode) :
  all_load load_image (assets data) →
  ∃ w g w' W rest,
    TreeGraph_new load_image repr data = (w, Ok g) ∧
    display_tree repr g w = (w', Ok tt) ∧
    W = returned_width (x_spacing g) data ∧
    scrollregion w' = Some ((- W) / 2, -30, W / 2, 600) ∧
    0 ≤ W ≤ 800 ∧ W / 2 ≤ 400 ∧
    labels (items w') = (name data, 400, 30) :: rest.
Proof.
  intros Hall.
  destruct (pipeline_returns load_image repr data Hall)
    as (w & w' & Hnew & Hrun & Hl & _).
  destruct (display_tree_Ok repr _ _ _ Hrun)
    as (w1 & its & _ & _ & _ & _ & _ & Hscroll).
  pose proof (returned_width_root_bound data) as HW.
  destruct data as [n i cs]. rewrite positions_unfold in Hl.
  eexists w, (graph_of _), w', _, _. split; [exact Hnew |].
  split; [exact Hrun |]. split; [reflexivity |].
  split; [exact Hscroll |]. split; [exact HW |]. split; [| exact Hl].
  apply Z.div_le_upper_bound; lia.
Qed.

(** X8. [display_tree] does not clear the canvas: called a second time on a
    constructed graph it returns again and the canvas then holds every
    label twice, at the same place, and twice the shapes and the lines. *)
Theorem display_tree_twice_draws_twice (data : TreeNode) :
  all_load load_image (assets data) →
  ∃ w g w1 w2,
    TreeGraph_new load_image repr data = (w, Ok g) ∧
    display_tree repr g w = (w1, Ok tt) ∧
    display_tree repr g w1 = (w2, Ok tt) ∧
    labels (items w2) = labels (items w1) ++ labels (items w1) ∧
    count_shapes (items w2) = (2 * count_nodes data)%nat ∧
    length (edges (items w2)) = (2 * pred (count_nodes data))%nat.
Proof.
  intros Hall.
  destruct (TreeGraph_new_returns load_image repr data Hall)
    as (w & Hnew & Hitems & Hpre & _).
  destruct (display_tree_returns repr (graph_of data) w Hpre)
    as (w1 & its1 & Hrun1 & Hitems1 & Hcache1 & Hl1 & Hs1 & He1).
  assert (preloaded data w1) as Hpre1.
  { intros path Hin. rewrite Hcache1. by apply Hpre. }
  destruct (display_tree_returns repr (graph_of data) w1 Hpre1)
    as (w2 & its2 & Hrun2 & Hitems2 & _ & Hl2 & Hs2 & He2).
  exists w, (graph_of data), w1, w2.
  split; [exact Hnew |]. split; [exact Hrun1 |]. split; [exact Hrun2 |].
  rewrite Hitems2, Hitems1, Hitems.
  rewrite !labels_app, !count_shapes_app, !edges_app, !length_app.
  cbn [labels count_shapes edges length app].
  rewrite Hl1, Hl2, Hs1, Hs2, He1, He2.
  split; [done |]. split; simpl; lia.
Qed.

(** X10. In a constructed graph the dictionary holds exactly the assets of
    the tree, each with the handle it decoded to, and a file was opened for
    every node that names an asset, in pre-order, also when two nodes name
    the same one. *)
Theorem preloaded_images_after_init (data : TreeNode) w (g : TreeGraph) :
  TreeGraph_new load_image repr data = (w, Ok g) →
  opened w = assets data ∧
  (∀ path image,
     preloaded_images w !! path = Some image ↔
     path ∈ assets data ∧ load_image path = inl image).
Proof.
  intros H. apply TreeGraph_new_Ok in H as (_ & _ & _ & _ & Hopened & Hl).
  by split.
Qed.

(** X11. The constructor returns exactly when every asset of the tree
    decodes. *)
Theorem constructor_returns_iff_assets_decode (data : TreeNode) :
  (∃ w g, TreeGraph_new load_image repr data = (w, Ok g)) ↔
  all_load load_image (assets data).
Proof.
  split.
  - intros (w & g & H). by apply TreeGraph_new_Ok in H as (_ & Hall & _).
  - intros Hall.
    destruct (TreeGraph_new_returns load_image repr data Hall)
      as (w & Hnew & _).
    by exists w, (graph_of data).
Qed.
End Placing.

(** ** Further properties: a drawing that fails *)

Section Raising.
Context {Image : Type}.
Variable repr : string → string.
Implicit Types w : @World Image.

(** X5. [draw_tree] returns exactly when every asset of the subtree is a
    key of the dictionary of preloaded images. *)
Theorem draw_tree_returns_iff_preloaded
    (self : TreeGraph) (node : TreeNode) (x y : Z) w :
  (∃ w' r, draw_tree repr self node x y w = (w', Ok r)) ↔ preloaded node w.
Proof.
  split.
  - intros (w' & r & H). by apply draw_tree_Ok in H as (_ & Hpre & _).
  - apply draw_tree_returns.
Qed.

(** X6. Whether it returns or raises, [draw_tree] only adds items to the
    canvas: the items that were there stay, and the scroll region, the
    dictionary of preloaded images and the files opened are as before.
    What it raises is a [ValueError]. *)
Theorem draw_tree_only_adds_items
    (self : TreeGraph) (node : TreeNode) (x y : Z) w w' (res : result Z) :
  draw_tree repr self node x y w = (w', res) →
  (∃ its, items w' = items w ++ its) ∧
  scrollregion w' = scrollregion w ∧
  preloaded_images w' = preloaded_images w ∧
  opened w' = opened w ∧
  match res with
  | Ok _ => True
  | Raise e => ∃ msg, e = ValueError msg
  end.
Proof.
  intros H. apply draw_tree_outcome in H as ((its & Hadd) & Hres).
  destruct Hadd as (Hitems & Hscroll & Hcache & Hopened).
  split; [by exists its |]. do 3 (split; [done |]).
  destruct Hres as [(r & -> & _) | (d & path & _ & ->)]; [done | by eexists].
Qed.

(** X7. When an asset is not preloaded, [display_tree] raises a
    [ValueError] for the first node, parent before children, that lacks
    one: the message is "Error displaying tree: ", then "Error drawing
    tree: " once per level of that node below the root, then "Failed to
    load image: ", the path, ". " and the [repr] of the path.  The scroll
    region is left as it was. *)
Theorem display_tree_error_message
    (self : TreeGraph) w (d : nat) (path : string) :
  first_missing (has_preloaded w) (data self) = Some (d, path) →
  ∃ w',
    display_tree repr self w
    = (w', Raise (ValueError
         ("Error displaying tree: " +:+
          Nat.iter d (λ msg, "Error drawing tree: " +:+ msg)
            ("Failed to load image: " +:+ path +:+ ". " +:+ repr path)))) ∧
    scrollregion w' = scrollregion w.
Proof.
  intros H. apply (display_tree_raises repr) in H as (w' & its & Hrun & Hadd).
  exists w'. split; [exact Hrun |]. by destruct Hadd as (_ & -> & _).
Qed.

(** X12. Nothing is taken back when a drawing fails: when the asset that
    is missing is below the node, [draw_tree] raises and the shape and the
    label of the node are on the canvas, after what was there. *)
Theorem failed_drawing_stays_on_canvas
    (self : TreeGraph) (node : TreeNode) (x y : Z) w (d : nat)
    (path : string) :
  first_missing (has_preloaded w) node = Some (S d, path) →
  ∃ w' msg it its,
    draw_tree repr self node x y w = (w', Raise (ValueError msg)) ∧
    count_shapes [it] = 1%nat ∧
    items w' = items w ++ it :: text_item x y (name node) "black" :: its.
Proof.
  intros H.
  apply (draw_tree_half_drawn repr node self x y) in H
    as (w' & it & its & Hrun & Hshape & Hitems).
  by exists w', (draw_error repr (S d) path), it, its.
Qed.
End Raising.

(** ** The further properties at the example inputs *)

Lemma labels_fit_vertically_witness :
  all_load demo_load (assets tree_data) ∧
  ∃ (w : @World string) g w',
    TreeGraph_new demo_load demo_repr tree_data = (w, Ok g) ∧
    display_tree demo_repr g w = (w', Ok tt) ∧
    Forall (λ p : string * Z * Z, 30 ≤ p.2 ∧ p.2 + y_spacing g ≤ 630)
           (labels (items w')).
Proof.
  assert (all_load demo_load (assets tree_data)) as Hall
    by (apply all_load_check; reflexivity).
  split; [exact Hall |].
  apply (labels_fit_vertically demo_load demo_repr tree_data Hall).
Defined.

Lemma chain_is_drawn_straight_down_witness :
  is_chain 10 chain10 = true ∧
  all_load demo_load (assets chain10) ∧
  ∃ (w : @World string) g w',
    TreeGraph_new demo_load demo_repr chain10 = (w, Ok g) ∧
    display_tree demo_repr g w = (w', Ok tt) ∧
    Forall (λ p : string * Z * Z, p.1.2 = 400) (labels (items w')).
Proof.
  assert (all_load demo_load (assets chain10)) as Hall
    by (apply all_load_check; reflexivity).
  split; [reflexivity |]. split; [exact Hall |].
  apply (chain_is_drawn_straight_down demo_load demo_repr 10 chain10
           eq_refl Hall).
Defined.

Lemma scroll_region_after_display_witness :
  all_load demo_load (assets tree_data) ∧
  ∃ (w : @World string) g w' W rest,
    TreeGraph_new demo_load demo_repr tree_data = (w, Ok g) ∧
    display_tree demo_repr g w = (w', Ok tt) ∧
    W = returned_width (x_spacing g) tree_data ∧
    scrollregion w' = Some ((- W) / 2, -30, W / 2, 600) ∧
    0 ≤ W ≤ 800 ∧ W / 2 ≤ 400 ∧
    labels (items w') = (name tree_data, 400, 30) :: rest.
Proof.
  assert (all_load demo_load (assets tree_data)) as Hall
    by (apply all_load_check; reflexivity).
  split; [exact Hall |].
  apply (scroll_region_after_display demo_load demo_repr tree_data Hall).
Defined.

Lemma display_tree_twice_draws_twice_witness :
  all_load demo_load (assets tree_data) ∧
  ∃ (w : @World string) g w1 w2,
    TreeGraph_new demo_load demo_repr tree_data = (w, Ok g) ∧
    display_tree demo_repr g w = (w1, Ok tt) ∧
    display_tree demo_repr g w1 = (w2, Ok tt) ∧
    labels (items w2) = labels (items w1) ++ labels (items w1) ∧
    count_shapes (items w2) = (2 * count_nodes tree_data)%nat ∧
    length (edges (items w2)) = (2 * pred (count_nodes tree_data))%nat.
Proof.
  assert (all_load demo_load (assets tree_data)) as Hall
    by (apply all_load_check; reflexivity).
  split; [exact Hall |].
  apply (display_tree_twice_draws_twice demo_load demo_repr tree_data Hall).
Defined.

Lemma preloaded_images_after_init_witness :
  let run := TreeGraph_new demo_load demo_repr twice_tree in
  run = (run.1, Ok (graph_of twice_tree)) ∧
  (opened run.1 = assets twice_tree ∧
   (∀ path image,
      preloaded_images run.1 !! path = Some image ↔
      path ∈ assets twice_tree ∧ demo_load path = inl image)).
Proof.
  intros run. split; [reflexivity |].
  apply (preloaded_images_after_init demo_load demo_repr twice_tree
           run.1 (graph_of twice_tree)).
  reflexivity.
Defined.

Lemma draw_tree_only_adds_items_witness :
  let self := graph_of gone_tree in
  let run := draw_tree demo_repr self gone_tree 400 30
               (@fresh_world string) in
  run = (run.1, run.2) ∧
  ((∃ its, items run.1 = items (@fresh_world string) ++ its) ∧
   scrollregion run.1 = scrollregion (@fresh_world string) ∧
   preloaded_images run.1 = preloaded_images (@fresh_world string) ∧
   opened run.1 = opened (@fresh_world string) ∧
   match run.2 with
   | Ok _ => True
   | Raise e => ∃ msg, e = ValueError msg
   end).
Proof.
  intros self run. split; [reflexivity |].
  apply (draw_tree_only_adds_items demo_repr self gone_tree 400 30
           fresh_world run.1 run.2).
  reflexivity.
Defined.

Lemma display_tree_error_message_witness :
  let self := graph_of gone_tree in
  first_missing (has_preloaded (@fresh_world string)) (data self)
    = Some (2%nat, "gone.png"%string) ∧
  ∃ w' : @World string,
    display_tree demo_repr self fresh_world
    = (w', Raise (ValueError
         ("Error displaying tree: " +:+
          Nat.iter 2 (λ msg, "Error drawing tree: " +:+ msg)
            ("Failed to load image: " +:+ "gone.png" +:+ ". "
             +:+ demo_repr "gone.png")))) ∧
    scrollregion w' = scrollregion (@fresh_world string).
Proof.
  intros self. split; [reflexivity |].
  apply (display_tree_error_message demo_repr self fresh_world 2 "gone.png").
  reflexivity.
Defined.

Lemma failed_drawing_stays_on_canvas_witness :
  let self := graph_of gone_tree in
  first_missing (has_preloaded (@fresh_world string)) gone_tree
    = Some (2%nat, "gone.png"%string) ∧
  ∃ (w' : @World string) msg it its,
    draw_tree demo_repr self gone_tree 400 30 fresh_world
    = (w', Raise (ValueError msg)) ∧
    count_shapes [it] = 1%nat ∧
    items w' = items (@fresh_world string)
               ++ it :: text_item 400 30 (name gone_tree) "black" :: its.
Proof.
  intros self. split; [reflexivity |].
  apply (failed_drawing_stays_on_canvas demo_repr self gone_tree 400 30
           fresh_world 1 "gone.png").
  reflexivity.
Defined.

(** ** A preload that fails *)

Section Stopping.
Context {Image : Type}.
Variable load_image : string → Image + string.
Variable repr : string → string.
#[local] Existing Instance M_ret.
#[local] Existing Instance M_bind.
Implicit Types w : @World Image.

(** When a path does not decode and the paths before it do, the pass raises
    at it and the dictionary holds what it held and the handles of the paths
    before it: nothing is taken back. *)
Lemma preload_paths_raises_keeps l1 a l2 cause w :
  all_load load_image l1 →
  load_image a = inr cause →
  ∃ w',
    preload_paths load_image repr (l1 ++ a :: l2) w
    = (w', Raise (ValueError
         ("Failed to load image: " +:+ a +:+ ". " +:+ cause))) ∧
    items w' = items w ∧
    opened w' = opened w ++ l1 ++ [a] ∧
    (∀ path image,
       preloaded_images w' !! path = Some image ↔
       (path ∈ l1 ∧ load_image path = inl image) ∨
       ((path ∉ l1) ∧ preloaded_images w !! path = Some image)).
Proof.
  intros Hall Ha.
  destruct (preload_paths_returns load_image repr l1 w Hall)
    as (w1 & Hrun1 & _).
  pose proof (preload_paths_Ok load_image repr l1 w w1 Hrun1)
    as (_ & Hitems & _ & Hopened & Hlookup).
  eexists. split.
  - rewrite preload_paths_app. unfold mbind at 1, M_bind at 1.
    rewrite Hrun1. cbn [preload_paths].
    unfold mbind, M_bind, try_except, load_and_store. rewrite Ha.
    reflexivity.
  - cbn [items opened preloaded_images].
    split; [exact Hitems |]. split; [| exact Hlookup].
    by rewrite Hopened, <- app_assoc.
Qed.

(** C6, as the code has it.  When an asset of the tree does not decode and
    those before it do, [preload_images] raises at it, with its path and the
    cause in the message, after opening the paths up to it and none after
    it.  The pass is not taken back: the dictionary then holds what it held
    before and the handle of every asset decoded before the failure.  The
    constructor raises the same error, so it returns no graph. *)
Theorem preload_stops_at_first_failure
    (data : TreeNode) (l1 : list string) (a : string) (l2 : list string)
    (cause : string) :
  assets data = l1 ++ a :: l2 →
  all_load load_image l1 →
  load_image a = inr cause →
  (∀ w, ∃ w',
      preload_images load_image repr data w
      = (w', Raise (ValueError
           ("Failed to load image: " +:+ a +:+ ". " +:+ cause))) ∧
      opened w' = opened w ++ l1 ++ [a] ∧
      (∀ path image,
         preloaded_images w' !! path = Some image ↔
         (path ∈ l1 ∧ load_image path = inl image) ∨
         ((path ∉ l1) ∧ preloaded_images w !! path = Some image))) ∧
  ∃ w', TreeGraph_new load_image repr data
        = (w', Raise (ValueError
             ("Failed to load image: " +:+ a +:+ ". " +:+ cause))) ∧
        opened w' = l1 ++ [a] ∧
        (∀ path image,
           preloaded_images w' !! path = Some image ↔
           path ∈ l1 ∧ load_image path = inl image).
Proof.
  intros Hassets Hall Ha. split.
  - intros w. rewrite preload_images_paths, Hassets.
    destruct (preload_paths_raises_keeps l1 a l2 cause w Hall Ha)
      as (w' & Hrun & _ & Hopened & Hlookup).
    by exists w'.
  - unfold TreeGraph_new. rewrite TreeGraph_init_unfold, Hassets.
    destruct (preload_paths_raises_keeps l1 a l2 cause
                (add_item (window_item 0 0) fresh_world) Hall Ha)
      as (w' & -> & _ & Hopened & Hlookup).
    exists w'. split; [reflexivity |]. split; [exact Hopened |].
    intros path image. rewrite Hlookup. split.
    + intros [? | [_ Hl]]; [done |]. cbn in Hl. by rewrite lookup_empty in Hl.
    + intros ?. by left.
Qed.
End Stopping.

Lemma preload_stops_at_first_failure_witness :
  assets broken_tree = ["ok.png"] ++ "missing.png" :: ["x.png"] ∧
  all_load demo_load ["ok.png"] ∧
  demo_load "missing.png" = inr "No such file" ∧
  ((∀ w : @World string, ∃ w',
      preload_images demo_load demo_repr broken_tree w
      = (w', Raise (ValueError
           ("Failed to load image: " +:+ "missing.png" +:+ ". "
            +:+ "No such file"))) ∧
      opened w' = opened w ++ ["ok.png"] ++ ["missing.png"] ∧
      (∀ path image,
         preloaded_images w' !! path = Some image ↔
         (path ∈ ["ok.png"] ∧ demo_load path = inl image) ∨
         ((path ∉ ["ok.png"]) ∧ preloaded_images w !! path = Some image))) ∧
   ∃ w' : @World string,
     TreeGraph_new demo_load demo_repr broken_tree
     = (w', Raise (ValueError
          ("Failed to load image: " +:+ "missing.png" +:+ ". "
           +:+ "No such file"))) ∧
     opened w' = ["ok.png"] ++ ["missing.png"] ∧
     (∀ path image,
        preloaded_images w' !! path = Some image ↔
        path ∈ ["ok.png"] ∧ demo_load path = inl image)).
Proof.
  assert (all_load demo_load ["ok.png"]) as Hall
    by (apply all_load_check; reflexivity).
  split; [reflexivity |]. split; [exact Hall |]. split; [reflexivity |].
  apply (preload_stops_at_first_failure demo_load demo_repr broken_tree
           ["ok.png"] "missing.png" ["x.png"] "No such file");
    [reflexivity | exact Hall | reflexivity].
Defined.

(** C6 fails on the code in its second half: after the pass has raised at
    "missing.png", the dictionary holds the handle of "ok.png", decoded
    before it, and a later [draw_tree] of a node with that asset finds it
    and returns. *)
Lemma failed_preload_keeps_loaded_assets :
  let run := preload_images demo_load demo_repr broken_tree
               (@fresh_world string) in
  run.2 = Raise (ValueError
            "Failed to load image: missing.png. No such file") ∧
  preloaded_images run.1 !! "ok.png" = Some "ok.png"%string ∧
  (draw_tree demo_repr (graph_of broken_tree)
     (Node "a" (Some "ok.png") []) 400 30 run.1).2 = Ok 80.
Proof. repeat split; vm_compute; reflexivity. Qed.
